(** * evmbench frontend and audit launcher: a shallow embedding

    The development follows the sources of the repository:

    - [frontend/src/app/page.tsx]: the submission page ([handleSubmit],
      [canSubmit], [selectedLabel], [isValidGitHubUrl]);
    - the upload store ([useUploadStore]: [setMode], [setUpload],
      [setGitHubUrl], [setFromGitHub], [clearUpload]);
    - the GitHub URL input component ([GITHUB_URL_PATTERN], [isValid]);
    - the markdown exporter ([vulnerabilityToMarkdown],
      [generateAllVulnerabilitiesMarkdown], [downloadVulnerability],
      [downloadAllVulnerabilities]);
    - the shell launcher of the detect-only agent.

    JavaScript strings are sequences of UTF-16 code units; they are
    modelled as lists of code units, each a number in [N].  Shell strings
    (environment variables) are byte strings and use [string]. *)

From Stdlib Require Import NArith String Ascii DecimalString Lia.
From stdpp Require Import list.

Local Open Scope N_scope.

(** ** JavaScript strings *)

Definition jsstring := list N.

(** A source literal, code unit by code unit. *)
Definition lit (s : string) : jsstring :=
  map N_of_ascii (list_ascii_of_string s).

Definition newline : N := 10.
Definition slash : N := 47.
Definition hyphen : N := 45.

(** [WhiteSpace] and [LineTerminator] code units of ECMAScript, the ones
    [String.prototype.trim] strips. *)
Definition whiteSpaceUnits : list N :=
  [9; 10; 11; 12; 13; 32; 160; 5760;
   8192; 8193; 8194; 8195; 8196; 8197; 8198; 8199; 8200; 8201; 8202;
   8232; 8233; 8239; 8287; 12288; 65279].

Definition isWhiteSpace (c : N) : bool := bool_decide (c ∈ whiteSpaceUnits).

(** [LineTerminator] code units: the ones [.] refuses without the [s] flag. *)
Definition isLineTerminator (c : N) : bool :=
  bool_decide (c ∈ [10; 13; 8232; 8233]).

Fixpoint trimStart (s : jsstring) : jsstring :=
  match s with
  | c :: t => if isWhiteSpace c then trimStart t else s
  | [] => []
  end.

Definition trimEnd (s : jsstring) : jsstring := rev (trimStart (rev s)).

(** [s.trim()] *)
Definition trim (s : jsstring) : jsstring := trimEnd (trimStart s).

(** [String(n)] for a non-negative integer below 2^53. *)
Definition numberToString (n : N) : jsstring :=
  lit (NilZero.string_of_uint (N.to_uint n)).

(** [parts.join(sep)] *)
Fixpoint join (sep : jsstring) (parts : list jsstring) : jsstring :=
  match parts with
  | [] => []
  | [p] => p
  | p :: rest => p ++ sep ++ join sep rest
  end.

(** The lines of a text: [text.split("\n")]. *)
Fixpoint splitLines (s : jsstring) : list jsstring :=
  match s with
  | [] => [[]]
  | c :: t =>
      if bool_decide (c = newline) then [] :: splitLines t
      else match splitLines t with
           | l :: ls => (c :: l) :: ls
           | [] => [[c]]
           end
  end.

(** [s.startsWith(p)] *)
Fixpoint startsWith (p s : jsstring) : bool :=
  match p, s with
  | [], _ => true
  | a :: p', b :: s' => bool_decide (a = b) && startsWith p' s'
  | _ :: _, [] => false
  end.

(** [String.prototype.toUpperCase] on the ASCII letters.  The method also
    maps letters outside ASCII; those code units are left as they are
    here, so the model is exact on ASCII strings only. *)
Definition upperUnit (c : N) : N :=
  if (97 <=? c) && (c <=? 122) then c - 32 else c.

Definition toUpperCase (s : jsstring) : jsstring := map upperUnit s.

(** A value is truthy in [if (x)] when it is a non-empty string;
    [undefined], [null] and the empty string are falsy. *)
Definition truthy (x : option jsstring) : bool :=
  match x with
  | Some (_ :: _) => true
  | _ => false
  end.

(** ** Regular expressions

    The fragment of ECMAScript patterns the sources use, without flags:
    matching works on code units, [^] and [$] are the ends of the input,
    quantifiers are greedy and the matcher backtracks. *)

Inductive regex : Type :=
| RChar (c : N)                 (* a literal code unit *)
| RAny                          (* [.] *)
| RNotChar (c : N)              (* [[^c]] *)
| RSeq (r1 r2 : regex)
| ROpt (r : regex)              (* [r?] *)
| RStar (r : regex)             (* [r*] *)
| RPlus (r : regex)             (* [r+] *)
| RBol                          (* [^] *)
| REol                          (* [$] *)
| REmpty.

(** A position of the matcher: the index in the input and what is left. *)
Definition mstate : Type := nat * jsstring.

Definition progress (x y : mstate) : bool :=
  bool_decide (length (snd y) < length (snd x))%nat.

(** Iterations of a starred atom from [x], longest first.  An iteration
    that consumes nothing is refused (RepeatMatcher, step 2.b), so the
    length of the remaining input bounds the number of iterations. *)
Fixpoint starIter (step : mstate -> list mstate) (fuel : nat) (x : mstate)
  : list mstate :=
  match fuel with
  | O => [x]
  | S f => flat_map (starIter step f) (filter (λ y, progress x y = true) (step x)) ++ [x]
  end.

(** All the positions where a match of [r] started at [x] can end, in the
    order the backtracking matcher tries them. *)
Fixpoint ends (r : regex) (x : mstate) : list mstate :=
  match r with
  | RChar c =>
      match snd x with
      | d :: t => if bool_decide (d = c) then [(S (fst x), t)] else []
      | [] => []
      end
  | RAny =>
      match snd x with
      | d :: t => if isLineTerminator d then [] else [(S (fst x), t)]
      | [] => []
      end
  | RNotChar c =>
      match snd x with
      | d :: t => if bool_decide (d = c) then [] else [(S (fst x), t)]
      | [] => []
      end
  | RSeq r1 r2 => flat_map (ends r2) (ends r1 x)
  | ROpt r1 => ends r1 x ++ [x]
  | RStar r1 => starIter (ends r1) (length (snd x)) x
  | RPlus r1 =>
      flat_map (λ y, starIter (ends r1) (length (snd y)) y) (ends r1 x)
  | RBol => if bool_decide (fst x = O) then [x] else []
  | REol => match snd x with [] => [x] | _ :: _ => [] end
  | REmpty => [x]
  end.

(** The first match of [r] in [s] at or after index [i], as the pair of
    its start and end positions; [fuel] counts the start indices left. *)
Fixpoint firstMatch (r : regex) (fuel i : nat) (s : jsstring)
  : option (mstate * mstate) :=
  match ends r (i, drop i s) with
  | y :: _ => Some ((i, drop i s), y)
  | [] =>
      match fuel with
      | O => None
      | S f => firstMatch r f (S i) s
      end
  end.

(** [r.exec(s)]: start indices 0 to [s.length] are tried in turn. *)
Definition exec (r : regex) (s : jsstring) : option (mstate * mstate) :=
  firstMatch r (length s) O s.

(** [r.test(s)] *)
Definition test (r : regex) (s : jsstring) : bool :=
  match exec r s with Some _ => true | None => false end.

(** A sequence of pattern parts, and a literal run of code units. *)
Fixpoint rseq (rs : list regex) : regex :=
  match rs with
  | [] => REmpty
  | [r] => r
  | r :: rest => RSeq r (rseq rest)
  end.

Definition rlit (s : string) : regex := rseq (map RChar (lit s)).

(** [[^/]+] *)
Definition rsegment : regex := RPlus (RNotChar slash).

(** ** The GitHub URL pattern

    The pattern is, between the slashes of the source (a space is put
    after the star here),
      ^https?:\/\/github\.com\/[^/]+\/[^/]+(\/tree\/[^/]+(\/.* )?)?$
    and is declared with the same text in [page.tsx] and in the URL
    input component. *)
Definition GITHUB_URL_PATTERN : regex :=
  rseq [RBol;
        rlit "http"; ROpt (RChar (N_of_ascii "s")); rlit "://github.com/";
        rsegment; RChar slash; rsegment;
        ROpt (rseq [rlit "/tree/"; rsegment;
                    ROpt (RSeq (RChar slash) (RStar RAny))]);
        REol].

(** [page.tsx], [isValidGitHubUrl]:
    [GITHUB_URL_PATTERN.test(githubUrl.trim())]. *)
Definition isValidGitHubUrl (githubUrl : jsstring) : bool :=
  test GITHUB_URL_PATTERN (trim githubUrl).

(** The URL input component, [isValid]: [null] for a blank value,
    otherwise the result of the pattern. *)
Definition isValid (value : jsstring) : option bool :=
  match trim value with
  | [] => None
  | _ :: _ => Some (test GITHUB_URL_PATTERN (trim value))
  end.

(** [hasValue] of the same component. *)
Definition hasValue (value : jsstring) : bool :=
  bool_decide (0 < length (trim value))%nat.

(** ** The upload store ([useUploadStore]) *)

Inductive UploadMode : Type := Files | Github.

Global Instance UploadMode_eq_dec : EqDecision UploadMode.
Proof. solve_decision. Defined.

(** A browser [File]: its relative path and its bytes. *)
Record File : Type := mkFile { file_path : jsstring; file_bytes : list N }.

Record UploadState : Type := mkUpload {
  mode : UploadMode;
  files : option (list File);
  packageName : option jsstring;
  githubUrl : jsstring;
  fromGitHub : bool
}.

(** The state the store is created with. *)
Definition initialUpload : UploadState :=
  {| mode := Files; files := None; packageName := None;
     githubUrl := []; fromGitHub := false |}.

(** zustand's [set] merges the given fields into the state; each action
    below writes out the merge. *)
Definition setMode (m : UploadMode) (u : UploadState) : UploadState :=
  {| mode := m; files := files u; packageName := packageName u;
     githubUrl := githubUrl u; fromGitHub := fromGitHub u |}.

Definition setUpload (fs : option (list File)) (pn : option jsstring)
    (u : UploadState) : UploadState :=
  {| mode := mode u; files := fs; packageName := pn;
     githubUrl := githubUrl u; fromGitHub := fromGitHub u |}.

Definition setGitHubUrl (url : jsstring) (u : UploadState) : UploadState :=
  {| mode := mode u; files := files u; packageName := packageName u;
     githubUrl := url; fromGitHub := fromGitHub u |}.

Definition setFromGitHub (b : bool) (u : UploadState) : UploadState :=
  {| mode := mode u; files := files u; packageName := packageName u;
     githubUrl := githubUrl u; fromGitHub := b |}.

Definition clearUpload (u : UploadState) : UploadState :=
  {| mode := mode u; files := None; packageName := None;
     githubUrl := []; fromGitHub := false |}.

(** ** Recent jobs *)

Module Job.
Record t : Type := mk {
  job_id : jsstring;
  label : jsstring;
  created_at_ms : N;
  source : UploadMode
}.
End Job.

Abbreviation RecentJob := Job.t.

(** Modelled from the spec: [addRecentJob] of [lib/recent-jobs], which is
    not among the sources.  The record is put at the front, an older
    record with the same [job_id] is dropped, and the list is cut to the
    cap.  The cap itself is not given, so it is a parameter. *)
Definition addRecentJob (cap : nat) (job : RecentJob)
    (history : list RecentJob) : list RecentJob :=
  take cap
    (job :: filter (λ j, Job.job_id j ≠ Job.job_id job) history).

(** Modelled from the spec: [removeRecentJob] of [lib/recent-jobs], which
    is not among the sources.  The record with the given [job_id] is
    removed when there is one. *)
Definition removeRecentJob (jobId : jsstring)
    (history : list RecentJob) : list RecentJob :=
  filter (λ j, Job.job_id j ≠ jobId) history.

(** [page.tsx], the "Clear" button of the recent runs:
    [setRecentJobs([])]. *)
Definition clearRecentJobs (history : list RecentJob) : list RecentJob := [].

(** The histories the page can hold: it starts empty (also when the
    stored value is missing) and changes by the three operations. *)
Inductive reachableHistory (cap : nat) : list RecentJob -> Prop :=
| reach_empty : reachableHistory cap []
| reach_add job h :
    reachableHistory cap h -> reachableHistory cap (addRecentJob cap job h)
| reach_remove jobId h :
    reachableHistory cap h -> reachableHistory cap (removeRecentJob jobId h)
| reach_clear h :
    reachableHistory cap h -> reachableHistory cap (clearRecentJobs h).

(** ** The submission page ([page.tsx]) *)

(** What a rejected promise carries: an [Error] with its message, or any
    other thrown value. *)
Inductive Thrown : Type :=
| ErrorObject (message : jsstring)
| OtherValue.

Inductive Outcome (A : Type) : Type :=
| Resolved (a : A)
| Rejected (e : Thrown).

Arguments Resolved {A} a.
Arguments Rejected {A} e.

(** The collaborators of the page that are imported from [lib/]: the
    label inference, the archive packager, the two submission calls and
    the clock, with the cap of the job history. *)
Record Backend : Type := mkBackend {
  inferPackageName : list File -> option jsstring;
  createZipFromFiles : list File -> jsstring -> Outcome File;
  startJob : File -> jsstring -> jsstring -> Outcome jsstring;
  startJobFromGitHub : jsstring -> jsstring -> jsstring -> Outcome jsstring;
  dateNow : N;
  historyCap : nat
}.

(** The effects of the page, as they happen. *)
Inductive Event : Type :=
| CallCreateZip (fs : list File) (name : jsstring)
| CallStartJob (zip : File) (model key : jsstring)
| CallStartJobFromGitHub (url model key : jsstring)
| CallSetFromGitHub (b : bool)
| CallClearUpload
| CallAddRecentJob (job : RecentJob)
| CallSetRecentJobs (next : list RecentJob)
| CallRouterPush (url : jsstring)
| CallSetSubmitError (msg : option jsstring)
| CallSetIsSubmitting (b : bool).

Definition isNetworkCall (e : Event) : bool :=
  match e with
  | CallStartJob _ _ _ | CallStartJobFromGitHub _ _ _ => true
  | _ => false
  end.

Definition isErrorMessage (e : Event) : bool :=
  match e with
  | CallSetSubmitError (Some _) => true
  | _ => false
  end.

Record PageState : Type := mkPage {
  store : UploadState;
  openaiKey : jsstring;
  model : jsstring;
  isSubmitting : bool;
  submitError : option jsstring;
  recentJobs : list RecentJob;      (* the persisted job history *)
  isAuthorized : bool;
  isAuthLoading : bool;
  route : option jsstring;          (* where [router.push] last went *)
  trace : list Event                (* the effects so far, oldest first *)
}.

(** Actions on the page: state passing, with a thrown value cutting the
    rest of a [try] block short. *)
Definition Act (A : Type) : Type := PageState -> PageState * Outcome A.

Definition ret {A} (a : A) : Act A := λ s, (s, Resolved a).

Definition bind {A B} (m : Act A) (k : A -> Act B) : Act B :=
  λ s, match m s with
       | (s', Resolved a) => k a s'
       | (s', Rejected e) => (s', Rejected e)
       end.

Notation "x <- m ;; k" := (bind m (λ x, k))
  (at level 60, m at next level, right associativity).
Notation "m ;;; k" := (bind m (λ _, k))
  (at level 60, right associativity).

Definition emit (e : Event) (s : PageState) : PageState :=
  {| store := store s; openaiKey := openaiKey s; model := model s;
     isSubmitting := isSubmitting s; submitError := submitError s;
     recentJobs := recentJobs s; isAuthorized := isAuthorized s;
     isAuthLoading := isAuthLoading s; route := route s;
     trace := trace s ++ [e] |}.

Definition withStore (f : UploadState -> UploadState) (s : PageState)
  : PageState :=
  {| store := f (store s); openaiKey := openaiKey s; model := model s;
     isSubmitting := isSubmitting s; submitError := submitError s;
     recentJobs := recentJobs s; isAuthorized := isAuthorized s;
     isAuthLoading := isAuthLoading s; route := route s;
     trace := trace s |}.

Definition setIsSubmitting (b : bool) (s : PageState) : PageState :=
  emit (CallSetIsSubmitting b)
    {| store := store s; openaiKey := openaiKey s; model := model s;
       isSubmitting := b; submitError := submitError s;
       recentJobs := recentJobs s; isAuthorized := isAuthorized s;
       isAuthLoading := isAuthLoading s; route := route s;
       trace := trace s |}.

Definition setSubmitError (msg : option jsstring) (s : PageState)
  : PageState :=
  emit (CallSetSubmitError msg)
    {| store := store s; openaiKey := openaiKey s; model := model s;
       isSubmitting := isSubmitting s; submitError := msg;
       recentJobs := recentJobs s; isAuthorized := isAuthorized s;
       isAuthLoading := isAuthLoading s; route := route s;
       trace := trace s |}.

Definition setRecentJobs (next : list RecentJob) (s : PageState)
  : PageState :=
  emit (CallSetRecentJobs next)
    {| store := store s; openaiKey := openaiKey s; model := model s;
       isSubmitting := isSubmitting s; submitError := submitError s;
       recentJobs := next; isAuthorized := isAuthorized s;
       isAuthLoading := isAuthLoading s; route := route s;
       trace := trace s |}.

Definition routerPush (url : jsstring) (s : PageState) : PageState :=
  emit (CallRouterPush url)
    {| store := store s; openaiKey := openaiKey s; model := model s;
       isSubmitting := isSubmitting s; submitError := submitError s;
       recentJobs := recentJobs s; isAuthorized := isAuthorized s;
       isAuthLoading := isAuthLoading s; route := Some url;
       trace := trace s |}.

(** A state change as an action, and an awaited call: the call is
    recorded, then it resolves or rejects. *)
Definition act (f : PageState -> PageState) : Act unit :=
  λ s, (f s, Resolved tt).

Definition await {A} (e : Event) (r : Outcome A) : Act A :=
  λ s, (emit e s, r).

(** [fileCount]: [files?.length ?? 0]. *)
Definition fileCount (u : UploadState) : nat :=
  match files u with Some fs => length fs | None => O end.

(** The pattern of [selectedLabel], "/github\.com\/[^/]+\/([^/]+)/", in
    two parts: what comes before the group, and the group. *)
Definition labelPrefix : regex :=
  rseq [rlit "github.com/"; rsegment; RChar slash].
Definition labelGroup : regex := rsegment.

(** [s.match(re)[1]] for that pattern: the text of the group in the first
    match, start indices and alternatives taken in the matcher's order. *)
Fixpoint firstGroup (pre grp : regex) (fuel i : nat) (s : jsstring)
  : option jsstring :=
  match flat_map (λ y, map (λ z, (y, z)) (ends grp y))
                 (ends pre (i, drop i s)) with
  | (y, z) :: _ => Some (take (fst z - fst y) (snd y))
  | [] =>
      match fuel with
      | O => None
      | S f => firstGroup pre grp f (S i) s
      end
  end.

(** [name.replace(/\.git$/, "")] *)
Definition stripDotGit (name : jsstring) : jsstring :=
  match exec (RSeq (rlit ".git") REol) name with
  | Some (x, _) => take (fst x) name
  | None => name
  end.

(** [selectedLabel] *)
Definition selectedLabel (b : Backend) (u : UploadState) : option jsstring :=
  if bool_decide (mode u = Github) && bool_decide (trim (githubUrl u) ≠ [])
  then
    match firstGroup labelPrefix labelGroup (length (githubUrl u)) O
            (githubUrl u) with
    | Some name => Some (stripDotGit name)
    | None => Some (lit "github-repo")
    end
  else if truthy (packageName u) then packageName u
  else match files u with
       | Some fs => inferPackageName b fs
       | None => None
       end.

(** [canSubmit] *)
Definition canSubmit (s : PageState) : bool :=
  if isSubmitting s || isAuthLoading s || negb (isAuthorized s) then false
  else if bool_decide (mode (store s) = Files)
  then bool_decide (files (store s) ≠ None)
       && bool_decide (0 < fileCount (store s))%nat
  else isValidGitHubUrl (githubUrl (store s)).

(** The message of the [catch] clause:
    [error instanceof Error ? error.message : "Upload failed"]. *)
Definition messageOf (e : Thrown) : jsstring :=
  match e with
  | ErrorObject m => m
  | OtherValue => lit "Upload failed"
  end.

(** The body of the [try] block of [handleSubmit].  The values the
    closure captured ([mode], [files], [githubUrl], [model], the key)
    are those of the state [s0] the handler was called in. *)
Definition tryBlock (b : Backend) (s0 : PageState) : Act unit :=
  let u := store s0 in
  let trimmedKey := trim (openaiKey s0) in
  let name := default (lit "files") (selectedLabel b u) in
  bind
    (if bool_decide (mode u = Github) then
       let url := trim (githubUrl u) in
       response <- await (CallStartJobFromGitHub url (model s0) trimmedKey)
                     (startJobFromGitHub b url (model s0) trimmedKey) ;;
       act (λ s, emit (CallSetFromGitHub true)
                   (withStore (setFromGitHub true) s)) ;;;
       ret response
     else
       let fs := default [] (files u) in
       zipFile <- await (CallCreateZip fs name) (createZipFromFiles b fs name) ;;
       response <- await (CallStartJob zipFile (model s0) trimmedKey)
                     (startJob b zipFile (model s0) trimmedKey) ;;
       act (λ s, emit (CallSetFromGitHub false)
                   (withStore (setFromGitHub false) s)) ;;;
       ret response)
    (λ jobId,
       let job := {| Job.job_id := jobId; Job.label := name;
                     Job.created_at_ms := dateNow b;
                     Job.source := mode u |} in
       next <- (λ s, (emit (CallAddRecentJob job) s,
                      Resolved (addRecentJob (historyCap b) job (recentJobs s)))) ;;
       act (setRecentJobs next) ;;;
       act (routerPush (lit "/results?job_id=" ++ jobId))).

(** [handleSubmit] *)
Definition handleSubmit (b : Backend) (s : PageState) : PageState :=
  if negb (isAuthorized s) then
    setSubmitError (Some (lit "Authorize with GitHub to start analysis.")) s
  else if bool_decide (mode (store s) = Files)
          && (bool_decide (files (store s) = None)
              || bool_decide (fileCount (store s) = O))
  then s
  else if bool_decide (mode (store s) = Github)
          && negb (isValidGitHubUrl (githubUrl (store s)))
  then s
  else
    let s1 := setSubmitError None (setIsSubmitting true s) in
    let s2 :=
      match tryBlock b s s1 with
      | (s', Resolved _) => s'
      | (s', Rejected e) => setSubmitError (Some (messageOf e)) s'
      end in
    setIsSubmitting false s2.

(** What the Submission Client answers for the draft of [s]: the outcome
    of the one call [handleSubmit] makes (after the archive is packed,
    in files mode). *)
Definition submissionOutcome (b : Backend) (s : PageState) : Outcome jsstring :=
  let u := store s in
  let key := trim (openaiKey s) in
  if bool_decide (mode u = Github) then
    startJobFromGitHub b (trim (githubUrl u)) (model s) key
  else
    let fs := default [] (files u) in
    match createZipFromFiles b fs (default (lit "files") (selectedLabel b u)) with
    | Resolved zip => startJob b zip (model s) key
    | Rejected e => Rejected e
    end.

(** The draft is eligible and the user is authorized: [handleSubmit]
    gets past its guards. *)
Definition passesGuards (s : PageState) : bool :=
  isAuthorized s
  && (if bool_decide (mode (store s) = Files)
      then bool_decide (files (store s) ≠ None)
           && bool_decide (0 < fileCount (store s))%nat
      else isValidGitHubUrl (githubUrl (store s))).

(** The draft with every field at its session-start value but the mode. *)
Definition draftCleared (u : UploadState) : Prop :=
  files u = None /\ packageName u = None
  /\ githubUrl u = [] /\ fromGitHub u = false.

(** ** The markdown exporter *)

Module Loc.
Record t : Type := mk {
  file : jsstring;
  line_start : N;
  line_end : N;
  desc : jsstring
}.
End Loc.

(** A [Vulnerability] of [@/types].  The optional fields are [None] when
    absent; a missing [description] is the empty list, which the exporter
    treats the same way. *)
Module Vuln.
Record t : Type := mk {
  id : jsstring;
  title : jsstring;
  severity : jsstring;
  summary : option jsstring;
  impact : option jsstring;
  description : list Loc.t;
  proof_of_concept : option jsstring;
  remediation : option jsstring
}.
End Vuln.

Abbreviation Vulnerability := Vuln.t.

Definition headingLine (vuln : Vulnerability) : jsstring :=
  lit "## " ++ Vuln.id vuln ++ lit ": " ++ Vuln.title vuln.

Definition severityLine (vuln : Vulnerability) : jsstring :=
  lit "**Severity:** " ++ toUpperCase (Vuln.severity vuln).

Definition fileLine (loc : Loc.t) : jsstring :=
  lit "**File:** `" ++ Loc.file loc ++ lit "` (lines "
    ++ numberToString (Loc.line_start loc) ++ lit "-"
    ++ numberToString (Loc.line_end loc) ++ lit ")".

(** An optional section: its heading, the text and an empty line, when
    the text is truthy. *)
Definition optionalSection (heading : string) (text : option jsstring)
  : list jsstring :=
  if truthy text then [lit heading; default [] text; []] else [].

(** What the loop over [vuln.description] pushes for one location. *)
Definition locationLines (loc : Loc.t) : list jsstring :=
  [[]; fileLine loc; []; Loc.desc loc].

Definition descriptionSection (locs : list Loc.t) : list jsstring :=
  match locs with
  | [] => []
  | _ :: _ => [lit "### Description"] ++ flat_map locationLines locs ++ [[]]
  end.

(** The array [lines] of [vulnerabilityToMarkdown] before the join. *)
Definition vulnerabilityLines (vuln : Vulnerability) : list jsstring :=
  [headingLine vuln; []; severityLine vuln; []]
    ++ optionalSection "### Summary" (Vuln.summary vuln)
    ++ optionalSection "### Impact" (Vuln.impact vuln)
    ++ descriptionSection (Vuln.description vuln)
    ++ optionalSection "### Proof of Concept" (Vuln.proof_of_concept vuln)
    ++ optionalSection "### Remediation" (Vuln.remediation vuln).

Definition vulnerabilityToMarkdown (vuln : Vulnerability) : jsstring :=
  join [newline] (vulnerabilityLines vuln).

Definition generateVulnerabilityMarkdown (vuln : Vulnerability) : jsstring :=
  lit "# Vulnerability Report" ++ [newline; newline]
    ++ vulnerabilityToMarkdown vuln.


(** The values the counting object of the [reduce] comes to hold: a
    number, or the text that [+ 1] makes of a value that is not a
    number. *)
Inductive Count : Type :=
| CountNumber (n : N)
| CountText (text : jsstring).

(** The text of a built-in function, as V8 prints it. *)
Definition nativeFunctionText (name : string) : jsstring :=
  lit "function " ++ lit name ++ lit "() { [native code] }".

(** The counting object starts as "{}", an object that inherits the
    members of [Object.prototype]: their names, each with the text that
    [+] makes of the inherited value. *)
Definition objectPrototypeTexts : list (jsstring * jsstring) :=
  [(lit "constructor", nativeFunctionText "Object");
   (lit "__defineGetter__", nativeFunctionText "__defineGetter__");
   (lit "__defineSetter__", nativeFunctionText "__defineSetter__");
   (lit "hasOwnProperty", nativeFunctionText "hasOwnProperty");
   (lit "__lookupGetter__", nativeFunctionText "__lookupGetter__");
   (lit "__lookupSetter__", nativeFunctionText "__lookupSetter__");
   (lit "isPrototypeOf", nativeFunctionText "isPrototypeOf");
   (lit "propertyIsEnumerable", nativeFunctionText "propertyIsEnumerable");
   (lit "toString", nativeFunctionText "toString");
   (lit "valueOf", nativeFunctionText "valueOf");
   (lit "__proto__", lit "[object Object]");
   (lit "toLocaleString", nativeFunctionText "toLocaleString")].

Definition inheritedText (key : jsstring) : option jsstring :=
  snd <$> List.find (λ member, bool_decide (fst member = key))
            objectPrototypeTexts.

(** [(acc[key] || 0) + 1] when [key] is an own property with the given
    value: a number is incremented (zero, though falsy, gives one as
    well), a text that is not empty gets a "1" appended. *)
Definition plusOne (value : Count) : Count :=
  match value with
  | CountNumber n => CountNumber (n + 1)
  | CountText [] => CountNumber 1
  | CountText (c :: text) => CountText ((c :: text) ++ lit "1")
  end.

(** [(acc[key] || 0) + 1] when [key] is not an own property: the
    inherited member, if there is one, is truthy and is turned into its
    text; otherwise the count starts at one. *)
Definition firstCount (key : jsstring) : Count :=
  match inheritedText key with
  | Some text => CountText (text ++ lit "1")
  | None => CountNumber 1
  end.

(** The assignment [acc[key] = (acc[key] || 0) + 1] on the own
    properties of the object, kept in the order they were first set. *)
Fixpoint bumpOwn (key : jsstring) (acc : list (jsstring * Count))
  : list (jsstring * Count) :=
  match acc with
  | [] => [(key, firstCount key)]
  | (k, value) :: rest =>
      if bool_decide (k = key) then (k, plusOne value) :: rest
      else (k, value) :: bumpOwn key rest
  end.

(** One step of the [reduce].  An assignment to [__proto__] goes to the
    inherited setter, which ignores a value that is not an object: the
    object stays as it is. *)
Definition bumpCount (key : jsstring) (acc : list (jsstring * Count))
  : list (jsstring * Count) :=
  if bool_decide (key = lit "__proto__") then acc else bumpOwn key acc.

Definition bySeverity (vulnerabilities : list Vulnerability)
  : list (jsstring * Count) :=
  fold_left (λ acc v, bumpCount (Vuln.severity v) acc) vulnerabilities [].

(** Array-index keys (canonical decimal numbers below 2^32 - 1) come
    first in [Object.entries], in increasing order; the other keys follow
    in the order they were set. *)
Definition isDigit (c : N) : bool := (48 <=? c) && (c <=? 57).

Definition digitsValue (s : jsstring) : N :=
  fold_left (λ acc c, 10 * acc + (c - 48)) s 0.

Definition arrayIndex (key : jsstring) : option N :=
  match key with
  | [] => None
  | c :: rest =>
      if forallb isDigit key
         && (negb (bool_decide (c = 48)) || bool_decide (rest = []))
         && (digitsValue key <? 4294967295)
      then Some (digitsValue key) else None
  end.

Fixpoint insertIndexed {V : Type} (e : N * (jsstring * V))
    (l : list (N * (jsstring * V))) : list (N * (jsstring * V)) :=
  match l with
  | [] => [e]
  | e' :: rest =>
      if fst e <=? fst e' then e :: l else e' :: insertIndexed e rest
  end.

Definition objectEntries {V : Type} (obj : list (jsstring * V))
  : list (jsstring * V) :=
  let indexed :=
    omap (λ kv, match arrayIndex (fst kv) with
                | Some i => Some (i, kv)
                | None => None
                end) obj in
  map snd (foldr insertIndexed [] indexed)
    ++ filter (λ kv, arrayIndex (fst kv) = None) obj.

(** "${count}" *)
Definition countText (count : Count) : jsstring :=
  match count with
  | CountNumber n => numberToString n
  | CountText text => text
  end.

Definition severityCountLine (entry : jsstring * Count) : jsstring :=
  lit "- **" ++ toUpperCase (fst entry) ++ lit ":** "
    ++ countText (snd entry).

Definition totalLine (vulnerabilities : list Vulnerability) : jsstring :=
  lit "**Total Vulnerabilities:** "
    ++ numberToString (N.of_nat (length vulnerabilities)).

(** The lines pushed before the loop over the vulnerabilities. *)
Definition reportPreamble (vulnerabilities : list Vulnerability)
    (jobId : option jsstring) : list jsstring :=
  [lit "# Security Audit Report"; []]
    ++ (if truthy jobId then [lit "**Job ID:** " ++ default [] jobId; []]
        else [])
    ++ [totalLine vulnerabilities; []]
    ++ [lit "### Summary by Severity"; []]
    ++ map severityCountLine (objectEntries (bySeverity vulnerabilities))
    ++ [[]; lit "---"; []].

(** What the loop pushes for one vulnerability: its whole section as one
    element, the rule and an empty line. *)
Definition reportSection (vuln : Vulnerability) : list jsstring :=
  [vulnerabilityToMarkdown vuln; lit "---"; []].

Definition generateAllVulnerabilitiesMarkdown
    (vulnerabilities : list Vulnerability) (jobId : option jsstring)
  : jsstring :=
  join [newline]
    (reportPreamble vulnerabilities jobId
       ++ flat_map reportSection vulnerabilities).

(** The replacement of "/[^a-zA-Z0-9]/g" by a hyphen, unit by unit. *)
Definition isAlphaNum (c : N) : bool :=
  ((97 <=? c) && (c <=? 122)) || ((65 <=? c) && (c <=? 90)) || isDigit c.

Definition sanitizeUnit (c : N) : N := if isAlphaNum c then c else hyphen.

(** The title part of the file name:
    [vuln.title.slice(0, 30).replace(..., "-")]. *)
Definition sanitizedTitle (vuln : Vulnerability) : jsstring :=
  map sanitizeUnit (take 30 (Vuln.title vuln)).

(** [downloadVulnerability] and [downloadAllVulnerabilities], as the
    content and the file name they hand to [downloadMarkdown]. *)
Definition downloadVulnerability (vuln : Vulnerability)
  : jsstring * jsstring :=
  let content := generateVulnerabilityMarkdown vuln in
  let filename := Vuln.id vuln ++ lit "-" ++ sanitizedTitle vuln ++ lit ".md" in
  (content, filename).

Definition downloadAllVulnerabilities (vulnerabilities : list Vulnerability)
    (jobId : option jsstring) : jsstring * jsstring :=
  let content := generateAllVulnerabilitiesMarkdown vulnerabilities jobId in
  let filename :=
    if truthy jobId
    then lit "audit-report-" ++ take 8 (default [] jobId) ++ lit ".md"
    else lit "audit-report.md" in
  (content, filename).

(** The code units the sanitizer can leave in a file name, with the dot
    of the suffix. *)
Definition restrictedUnit (c : N) : bool :=
  isAlphaNum c || bool_decide (c = hyphen) || bool_decide (c = 46).

(** ** The launcher of the detect-only agent (shell script)

    The script runs under [set -euo pipefail]: a failing command ends it
    with that command's status.  Environment variables are byte strings;
    an unset variable is [None]. *)

Module Launcher.

Local Open Scope string_scope.
Local Open Scope nat_scope.

Record Env : Type := mkEnv {
  AGENT_DIR : option string;
  SUBMISSION_DIR : option string;
  LOGS_DIR : option string;
  PI_API_KEY : option string;
  PI_MODEL : option string;
  PI_BASE_URL : option string;
  EVM_BENCH_DETECT_MD : option string;
  EVM_BENCH_PI_TIMEOUT_SECONDS : option string
}.

(** How the wrapped agent ended under [timeout --signal=KILL]. *)
Inductive AgentRun : Type :=
| AgentExited (code : nat)
| AgentKilledOnTimeout.

(** The status [timeout] reports for the run. *)
Definition agentStatus (r : AgentRun) : nat :=
  match r with
  | AgentExited code => code
  | AgentKilledOnTimeout => 137
  end.

(** What the script sees of the machine: the statuses of its set-up
    commands, the run of the agent under the given duration, and
    whether each report is a non-empty file afterwards ([-s]).
    [scriptName] is the name the script was started under ("$0"), with
    which the shell begins its own messages. *)
Record Sys : Type := mkSys {
  scriptName : string;
  mkdirOutputDirs : nat;
  cpInstructions : nat;
  rmOldReports : nat;
  mkdirConfigDir : nat;
  writeModelsJson : nat;
  runAgent : string -> AgentRun;
  auditJsonNonEmpty : bool;
  auditMdNonEmpty : bool
}.

Record Result : Type := mkResult {
  exitStatus : nat;
  stderrLines : list string
}.

(** A line number, as the shell prints it. *)
Definition lineNumber (line : nat) : string :=
  NilZero.string_of_uint (Nat.to_uint line).

(** What the shell writes when the expansion "${VAR:?missing VAR}" on
    line [line] of the script fails. *)
Definition expansionMessage (sys : Sys) (line : nat) (name : string)
  : string :=
  scriptName sys ++ ": line " ++ lineNumber line ++ ": " ++ name
    ++ ": missing " ++ name.

(** "${VAR:?missing VAR}" on line [line]: the value when the variable
    is set and not empty; otherwise the shell, which is not
    interactive, writes its message and exits with status 1. *)
Definition required (sys : Sys) (line : nat) (name : string)
    (v : option string) (k : string -> Result) : Result :=
  match v with
  | Some (String c rest) => k (String c rest)
  | _ => {| exitStatus := 1;
            stderrLines := [expansionMessage sys line name] |}
  end.

(** "${VAR:-word}": the value when the variable is set and not empty,
    otherwise the word. *)
Definition orDefault (v : option string) (word : string) : string :=
  match v with
  | Some (String c rest) => String c rest
  | _ => word
  end.

(** A command under [set -e]. *)
Definition command (status : nat) (k : Result) : Result :=
  if bool_decide (status = 0) then k
  else {| exitStatus := status; stderrLines := [] |}.

(** A command followed by "|| true": its status is dropped. *)
Definition commandOrTrue (status : nat) (k : Result) : Result := k.

Definition isDecimalDigit (a : ascii) : bool :=
  (48 <=? nat_of_ascii a) && (nat_of_ascii a <=? 57).

(** [[ s =~ ^[0-9]+$ ]] *)
Definition allDigits (s : string) : bool :=
  match s with
  | EmptyString => false
  | String _ _ => forallb isDecimalDigit (list_ascii_of_string s)
  end.

Definition missingOutputMessage (submissionDir : string) : string :=
  "missing expected output: " ++ submissionDir ++ "/audit.json or audit.md".

(** The script, top to bottom. *)
Definition launcher (env : Env) (sys : Sys) : Result :=
  required sys 15 "AGENT_DIR" (AGENT_DIR env) (λ agentDir,
  required sys 16 "SUBMISSION_DIR" (SUBMISSION_DIR env) (λ submissionDir,
  required sys 17 "LOGS_DIR" (LOGS_DIR env) (λ logsDir,
  required sys 18 "PI_API_KEY" (PI_API_KEY env) (λ apiKey,
  required sys 19 "PI_MODEL" (PI_MODEL env) (λ piModel,
  required sys 20 "PI_BASE_URL" (PI_BASE_URL env) (λ baseUrl,
  required sys 21 "EVM_BENCH_DETECT_MD" (EVM_BENCH_DETECT_MD env) (λ detectMd,
  command (mkdirOutputDirs sys) (
  let TIMEOUT_SECONDS :=
    orDefault (EVM_BENCH_PI_TIMEOUT_SECONDS env) "10800" in
  if negb (allDigits TIMEOUT_SECONDS) then
    {| exitStatus := 2;
       stderrLines :=
         ["invalid EVM_BENCH_PI_TIMEOUT_SECONDS=" ++ TIMEOUT_SECONDS] |}
  else
  command (cpInstructions sys) (
  command (rmOldReports sys) (
  command (mkdirConfigDir sys) (
  command (writeModelsJson sys) (
  commandOrTrue (agentStatus (runAgent sys (TIMEOUT_SECONDS ++ "s"))) (
  if negb (auditJsonNonEmpty sys) && negb (auditMdNonEmpty sys) then
    {| exitStatus := 2;
       stderrLines := [missingOutputMessage submissionDir] |}
  else
    {| exitStatus := 0; stderrLines := [] |}))))))))))))).

(** The conditions under which the script reaches its own checks: the
    required variables are set and not empty, and the set-up commands
    succeed. *)
Definition isSet (v : option string) : bool :=
  match v with Some (String _ _) => true | _ => false end.

Definition requiredSet (env : Env) : bool :=
  isSet (AGENT_DIR env) && isSet (SUBMISSION_DIR env)
  && isSet (LOGS_DIR env) && isSet (PI_API_KEY env)
  && isSet (PI_MODEL env) && isSet (PI_BASE_URL env)
  && isSet (EVM_BENCH_DETECT_MD env).

(** The commands between the check of the timeout and the run. *)
Definition laterSetupSucceeds (sys : Sys) : bool :=
  bool_decide (cpInstructions sys = 0)
  && bool_decide (rmOldReports sys = 0)
  && bool_decide (mkdirConfigDir sys = 0)
  && bool_decide (writeModelsJson sys = 0).

(** The same machine with another behaviour of the agent. *)
Definition withAgent (run : string -> AgentRun) (sys : Sys) : Sys :=
  {| scriptName := scriptName sys;
     mkdirOutputDirs := mkdirOutputDirs sys;
     cpInstructions := cpInstructions sys;
     rmOldReports := rmOldReports sys;
     mkdirConfigDir := mkdirConfigDir sys;
     writeModelsJson := writeModelsJson sys;
     runAgent := run;
     auditJsonNonEmpty := auditJsonNonEmpty sys;
     auditMdNonEmpty := auditMdNonEmpty sys |}.

(** The value the script uses for the timeout. *)
Definition timeoutSeconds (env : Env) : string :=
  orDefault (EVM_BENCH_PI_TIMEOUT_SECONDS env) "10800".

(** [needle] occurs in [s]. *)
Definition occursIn (needle s : string) : Prop :=
  exists before after, s = before ++ needle ++ after.

End Launcher.

(** ** The repository-reference grammar, as the specification words it

    [scheme://github.com/<owner>/<repo>[/tree/<ref>[/<subpath>]]]: the
    scheme is [http] or [https]; owner, repo and ref are non-empty and
    hold no slash; the subpath is anything the [.] of the pattern
    accepts, that is, any run of code units without a line terminator. *)

Definition pathSegment (w : jsstring) : Prop := w ≠ [] ∧ slash ∉ w.

Definition subpathText (w : jsstring) : Prop :=
  Forall (λ c, isLineTerminator c = false) w.

Definition treeSuffix (w : jsstring) : Prop :=
  w = []
  ∨ ∃ ref, pathSegment ref
      ∧ (w = lit "/tree/" ++ ref
         ∨ ∃ subpath, subpathText subpath
             ∧ w = lit "/tree/" ++ ref ++ [slash] ++ subpath).

Definition repositoryReference (s : jsstring) : Prop :=
  ∃ scheme owner repo suffix,
    (scheme = lit "http" ∨ scheme = lit "https")
    ∧ pathSegment owner ∧ pathSegment repo ∧ treeSuffix suffix
    ∧ s = scheme ++ lit "://github.com/" ++ owner ++ [slash] ++ repo ++ suffix.

(** Whitespace only, in the sense of [trim]. *)
Definition blank (w : jsstring) : Prop := Forall (λ c, isWhiteSpace c = true) w.

(** ** The words of a pattern

    The words a pattern without [^] and [$] matches, independently of
    the matcher. *)

Fixpoint anchorFree (r : regex) : bool :=
  match r with
  | RChar _ | RAny | RNotChar _ | REmpty => true
  | RSeq r1 r2 => anchorFree r1 && anchorFree r2
  | ROpt r1 | RStar r1 | RPlus r1 => anchorFree r1
  | RBol | REol => false
  end.

Fixpoint Lang (r : regex) (w : jsstring) : Prop :=
  match r with
  | RChar c => w = [c]
  | RAny => ∃ d, w = [d] ∧ isLineTerminator d = false
  | RNotChar c => ∃ d, w = [d] ∧ d ≠ c
  | RSeq r1 r2 => ∃ u v, w = u ++ v ∧ Lang r1 u ∧ Lang r2 v
  | ROpt r1 => Lang r1 w ∨ w = []
  | RStar r1 =>
      ∃ ws, w = concat ws ∧ Forall (λ u, Lang r1 u ∧ u ≠ []) ws
  | RPlus r1 =>
      ∃ u ws, w = u ++ concat ws ∧ Lang r1 u
              ∧ Forall (λ u, Lang r1 u ∧ u ≠ []) ws
  | RBol | REol => False
  | REmpty => w = []
  end.

(** A step function of the matcher computes exactly the words of [P]:
    from a position it reaches the positions that lie one word of [P]
    further. *)
Definition stepSpec (step : mstate -> list mstate)
    (P : jsstring -> Prop) : Prop :=
  ∀ i s j t,
    In (j, t) (step (i, s))
    ↔ ∃ w, s = w ++ t ∧ j = (i + length w)%nat ∧ P w.

(** The parts of [GITHUB_URL_PATTERN] between its two anchors. *)
Definition githubUrlParts : list regex :=
  [rlit "http"; ROpt (RChar (N_of_ascii "s")); rlit "://github.com/";
   rsegment; RChar slash; rsegment;
   ROpt (rseq [rlit "/tree/"; rsegment;
               ROpt (RSeq (RChar slash) (RStar RAny))])].

(** ** Observations on the effects of the page *)

Definition isHistoryWrite (e : Event) : bool :=
  match e with
  | CallAddRecentJob _ | CallSetRecentJobs _ => true
  | _ => false
  end.

Definition isDraftClear (e : Event) : bool :=
  match e with
  | CallClearUpload => true
  | _ => false
  end.

(** The calls that precede the answer of the backend. *)
Definition isSubmissionCall (e : Event) : bool :=
  match e with
  | CallCreateZip _ _ | CallStartJob _ _ _ | CallStartJobFromGitHub _ _ _ => true
  | _ => false
  end.

(** The record [handleSubmit] builds for the job the backend confirmed. *)
Definition submittedJob (b : Backend) (s : PageState) (jobId : jsstring)
  : RecentJob :=
  {| Job.job_id := jobId;
     Job.label := default (lit "files") (selectedLabel b (store s));
     Job.created_at_ms := dateNow b;
     Job.source := mode (store s) |}.

(** The effects [handleSubmit] adds when called in state [s]. *)
Definition newEvents (b : Backend) (s : PageState) : list Event :=
  drop (length (trace s)) (trace (handleSubmit b s)).

Definition authorizeMessage : jsstring :=
  lit "Authorize with GitHub to start analysis.".



(** ** Sample values *)

(** A backend that confirms every submission. *)
Definition confirmingBackend : Backend :=
  {| inferPackageName := λ _, Some (lit "contracts");
     createZipFromFiles := λ fs name, Resolved (mkFile (name ++ lit ".zip") []);
     startJob := λ _ _ _, Resolved (lit "job-files");
     startJobFromGitHub := λ _ _ _, Resolved (lit "job-github");
     dateNow := 1700000000000;
     historyCap := 50 |}.

(** A backend whose submission endpoints refuse. *)
Definition refusingBackend : Backend :=
  {| inferPackageName := λ _, Some (lit "contracts");
     createZipFromFiles := λ fs name, Resolved (mkFile (name ++ lit ".zip") []);
     startJob := λ _ _ _, Rejected (ErrorObject (lit "model not available"));
     startJobFromGitHub := λ _ _ _, Rejected OtherValue;
     dateNow := 1700000000000;
     historyCap := 50 |}.


Definition pageWith (u : UploadState) : PageState :=
  {| store := u; openaiKey := lit " sk-test "; model := lit "claude-opus-4-5";
     isSubmitting := false; submitError := None; recentJobs := [];
     isAuthorized := true; isAuthLoading := false; route := None;
     trace := [] |}.

Definition githubDraft (url : string) : UploadState :=
  setGitHubUrl (lit url) (setMode Github initialUpload).

Definition filesDraft : UploadState :=
  setUpload (Some [mkFile (lit "Token.sol") [1; 2; 3]]) (Some (lit "Token"))
    initialUpload.

Definition githubPage : PageState :=
  pageWith (githubDraft "https://github.com/acme/vault").

Definition filesPage : PageState := pageWith filesDraft.

Definition sampleJob (jobId label : string) : RecentJob :=
  {| Job.job_id := lit jobId; Job.label := lit label;
     Job.created_at_ms := 0; Job.source := Files |}.

(** The vulnerability of the exporter's example. *)
Definition reentrancy : Vulnerability :=
  {| Vuln.id := lit "V-1"; Vuln.title := lit "Reentrancy";
     Vuln.severity := lit "high"; Vuln.summary := Some (lit "...");
     Vuln.impact := None;
     Vuln.description :=
       [{| Loc.file := lit "A.sol"; Loc.line_start := 10;
           Loc.line_end := 20; Loc.desc := lit "..." |}];
     Vuln.proof_of_concept := None; Vuln.remediation := None |}.

(** A vulnerability whose identifier holds a slash and a colon. *)
Definition slashedId : Vulnerability :=
  {| Vuln.id := lit "src/Vault.sol:1"; Vuln.title := lit "Unchecked call (1)";
     Vuln.severity := lit "high"; Vuln.summary := None; Vuln.impact := None;
     Vuln.description := []; Vuln.proof_of_concept := None;
     Vuln.remediation := None |}.

(** ** Sample runs of the launcher *)

Module LauncherSamples.
Import Launcher.
Local Open Scope string_scope.

(** Every required variable set; the timeout is set, to the empty
    string. *)
Definition emptyTimeoutEnv : Env :=
  {| AGENT_DIR := Some "/agent"; SUBMISSION_DIR := Some "/agent/submission";
     LOGS_DIR := Some "/logs"; PI_API_KEY := Some "key";
     PI_MODEL := Some "model"; PI_BASE_URL := Some "http://proxy";
     EVM_BENCH_DETECT_MD := Some "/detect.md";
     EVM_BENCH_PI_TIMEOUT_SECONDS := Some "" |}.

(** The same with a timeout of ten minutes. *)
Definition tenMinutesEnv : Env :=
  {| AGENT_DIR := Some "/agent"; SUBMISSION_DIR := Some "/agent/submission";
     LOGS_DIR := Some "/logs"; PI_API_KEY := Some "key";
     PI_MODEL := Some "model"; PI_BASE_URL := Some "http://proxy";
     EVM_BENCH_DETECT_MD := Some "/detect.md";
     EVM_BENCH_PI_TIMEOUT_SECONDS := Some "600" |}.

(** The same with a timeout that is not a number. *)
Definition badTimeoutEnv : Env :=
  {| AGENT_DIR := Some "/agent"; SUBMISSION_DIR := Some "/agent/submission";
     LOGS_DIR := Some "/logs"; PI_API_KEY := Some "key";
     PI_MODEL := Some "model"; PI_BASE_URL := Some "http://proxy";
     EVM_BENCH_DETECT_MD := Some "/detect.md";
     EVM_BENCH_PI_TIMEOUT_SECONDS := Some "10m" |}.

(** A machine where every command succeeds, the agent is killed on
    timeout and [audit.md] is there afterwards. *)
Definition reportWritten : Sys :=
  {| scriptName := "./launcher.sh"; mkdirOutputDirs := 0; cpInstructions := 0;
     rmOldReports := 0; mkdirConfigDir := 0; writeModelsJson := 0;
     runAgent := λ _, AgentKilledOnTimeout;
     auditJsonNonEmpty := false; auditMdNonEmpty := true |}.

(** A machine where the agent exits cleanly and writes nothing. *)
Definition nothingWritten : Sys :=
  {| scriptName := "./launcher.sh"; mkdirOutputDirs := 0; cpInstructions := 0;
     rmOldReports := 0; mkdirConfigDir := 0; writeModelsJson := 0;
     runAgent := λ _, AgentExited 0;
     auditJsonNonEmpty := false; auditMdNonEmpty := false |}.

(** A machine where the instructions file cannot be copied. *)
Definition copyFails : Sys :=
  {| scriptName := "./launcher.sh"; mkdirOutputDirs := 0; cpInstructions := 1;
     rmOldReports := 0; mkdirConfigDir := 0; writeModelsJson := 0;
     runAgent := λ _, AgentExited 0;
     auditJsonNonEmpty := false; auditMdNonEmpty := true |}.

End LauncherSamples.

(** ** More of the page and of the exporter *)

(** [handleFilesSelected]:
    [setUpload(selected, inferPackageName(selected))]. *)
Definition handleFilesSelected (b : Backend) (selected : list File)
    (s : PageState) : PageState :=
  withStore (setUpload (Some selected) (inferPackageName b selected)) s.

(** [handleClear] of the URL input, [onChange("")], with the page's
    [setGitHubUrl] as [onChange]. *)
Definition handleClear (s : PageState) : PageState :=
  withStore (setGitHubUrl []) s.

(** The value the counting object holds for a key of its own, if it
    has that key. *)
Fixpoint getCount (key : jsstring) (obj : list (jsstring * Count))
  : option Count :=
  match obj with
  | [] => None
  | (k, value) :: rest =>
      if bool_decide (k = key) then Some value else getCount key rest
  end.

(** The vulnerabilities of a given severity. *)
Definition withSeverity (sev : jsstring) (vulnerabilities : list Vulnerability)
  : list Vulnerability :=
  filter (λ v, Vuln.severity v = sev) vulnerabilities.

(** The sum of the numbers a counting object holds. *)
Definition countNumber (count : Count) : N :=
  match count with
  | CountNumber n => n
  | CountText _ => 0
  end.

Definition totalCount (obj : list (jsstring * Count)) : N :=
  foldr (λ kv acc, countNumber (snd kv) + acc) 0 obj.

(** A vulnerability with the given severity and nothing else. *)
Definition bareFinding (id sev : string) : Vulnerability :=
  {| Vuln.id := lit id; Vuln.title := lit "Finding";
     Vuln.severity := lit sev; Vuln.summary := None; Vuln.impact := None;
     Vuln.description := []; Vuln.proof_of_concept := None;
     Vuln.remediation := None |}.


(** The calls [handleSubmit] awaits for the draft of [s], in order: the
    repository endpoint in GitHub mode; in files mode the packager and,
    when the archive is there, the upload endpoint. *)
Definition submissionCalls (b : Backend) (s : PageState) : list Event :=
  let u := store s in
  let key := trim (openaiKey s) in
  if bool_decide (mode u = Github) then
    [CallStartJobFromGitHub (trim (githubUrl u)) (model s) key]
  else
    let fs := default [] (files u) in
    let name := default (lit "files") (selectedLabel b u) in
    CallCreateZip fs name
      :: match createZipFromFiles b fs name with
         | Resolved zip => [CallStartJob zip (model s) key]
         | Rejected _ => []
         end.

(** The effects that follow the calls: those of a confirmed job, or the
    error message, and the release of the busy flag. *)
Definition closingEvents (b : Backend) (s : PageState) : list Event :=
  match submissionOutcome b s with
  | Resolved jobId =>
      [CallSetFromGitHub (bool_decide (mode (store s) = Github));
       CallAddRecentJob (submittedJob b s jobId);
       CallSetRecentJobs
         (addRecentJob (historyCap b) (submittedJob b s jobId) (recentJobs s));
       CallRouterPush (lit "/results?job_id=" ++ jobId);
       CallSetIsSubmitting false]
  | Rejected e =>
      [CallSetSubmitError (Some (messageOf e)); CallSetIsSubmitting false]
  end.


(** The positions at which a run [w] of units can be left, the whole
    run first: what a greedy starred class tries, in order, on [w]
    followed by [t]. *)
Fixpoint runEnds (i : nat) (w t : jsstring) : list mstate :=
  match w with
  | [] => [(i, t)]
  | d :: w' => runEnds (S i) w' t ++ [(i, d :: w' ++ t)]
  end.

(** A text at which a run without slash stops: its end, or a slash. *)
Definition stopsRun (t : jsstring) : Prop := t = [] ∨ ∃ r, t = slash :: r.


(** ** More of the launcher *)

Module LauncherChecks.
Import Launcher.
Local Open Scope string_scope.

(** The required variables, in the order the script checks them, each
    with the line of its check. *)
Definition requiredVariables (env : Env)
  : list (nat * string * option string) :=
  [(15, "AGENT_DIR", AGENT_DIR env);
   (16, "SUBMISSION_DIR", SUBMISSION_DIR env);
   (17, "LOGS_DIR", LOGS_DIR env);
   (18, "PI_API_KEY", PI_API_KEY env);
   (19, "PI_MODEL", PI_MODEL env);
   (20, "PI_BASE_URL", PI_BASE_URL env);
   (21, "EVM_BENCH_DETECT_MD", EVM_BENCH_DETECT_MD env)]%nat.

(** The first of them that is unset or empty, with its line. *)
Fixpoint firstUnset (vars : list (nat * string * option string))
  : option (nat * string) :=
  match vars with
  | [] => None
  | (line, name, v) :: rest =>
      if isSet v then firstUnset rest else Some (line, name)
  end.

(** The statuses of the commands between the check of the timeout and
    the run, in order. *)
Definition laterStatuses (sys : Sys) : list nat :=
  [cpInstructions sys; rmOldReports sys; mkdirConfigDir sys;
   writeModelsJson sys].

End LauncherChecks.


(** A launcher environment without a model: [PI_MODEL] is set, to the
    empty string, and [PI_BASE_URL] is unset. *)
Definition noModelEnv : Launcher.Env :=
  {| Launcher.AGENT_DIR := Some "/agent"%string;
     Launcher.SUBMISSION_DIR := Some "/agent/submission"%string;
     Launcher.LOGS_DIR := Some "/logs"%string;
     Launcher.PI_API_KEY := Some "key"%string;
     Launcher.PI_MODEL := Some ""%string;
     Launcher.PI_BASE_URL := None;
     Launcher.EVM_BENCH_DETECT_MD := Some "/detect.md"%string;
     Launcher.EVM_BENCH_PI_TIMEOUT_SECONDS := None |}.

(** * Properties *)

(** ** The matcher and the words of a pattern *)

Section Matcher.

Local Open Scope nat_scope.

Lemma starIter_self step fuel x : In x (starIter step fuel x).
Proof.
  destruct fuel; simpl; [by left|].
  apply in_or_app. right. by left.
Qed.

Lemma starIter_sound step P :
  stepSpec step P ->
  ∀ fuel i s j t,
    In (j, t) (starIter step fuel (i, s)) ->
    ∃ ws, s = concat ws ++ t ∧ j = i + length (concat ws)
          ∧ Forall (λ u, P u ∧ u ≠ []) ws.
Proof.
  intros Hstep fuel.
  induction fuel as [|f IH]; intros i s j t Hin; simpl in Hin.
  - destruct Hin as [[= <- <-]|[]]. exists []. simpl. split_and!; auto.
  - apply in_app_or in Hin as [Hin|[[= <- <-]|[]]].
    + apply in_flat_map in Hin as [[k u] [Hy Hz]].
      apply list_elem_of_In, list_elem_of_filter in Hy as [Hprog Hy].
      apply list_elem_of_In, Hstep in Hy as (w & -> & -> & Hw).
      apply IH in Hz as (ws & -> & -> & Hws).
      unfold progress in Hprog. apply bool_decide_eq_true in Hprog.
      simpl in Hprog. rewrite !length_app in Hprog.
      exists (w :: ws). simpl. rewrite length_app, <- app_assoc.
      split_and!; [done|lia|].
      constructor; [|done]. split; [done|].
      intros ->. simpl in Hprog. lia.
    + exists []. simpl. split_and!; auto.
Qed.

Lemma starIter_complete step P :
  stepSpec step P ->
  ∀ ws fuel i j t,
    Forall (λ u, P u ∧ u ≠ []) ws ->
    length (concat ws ++ t) ≤ fuel ->
    j = i + length (concat ws) ->
    In (j, t) (starIter step fuel (i, concat ws ++ t)).
Proof.
  intros Hstep ws.
  induction ws as [|w ws IH]; intros fuel i j t Hws Hlen ->.
  - simpl. rewrite Nat.add_0_r. apply starIter_self.
  - apply Forall_cons in Hws as [[Hw Hne] Hws].
    destruct w as [|c w]; [done|].
    simpl in Hlen. rewrite <- app_assoc, length_app in Hlen.
    destruct fuel as [|f]; [lia|].
    cbn [starIter]. apply in_or_app. left.
    apply in_flat_map.
    exists (i + length (c :: w), concat ws ++ t). split.
    + apply list_elem_of_In, list_elem_of_filter. split.
      * unfold progress. apply bool_decide_eq_true. simpl.
        rewrite ?length_app. simpl. rewrite ?length_app. lia.
      * apply list_elem_of_In, Hstep. exists (c :: w).
        split_and!; [|done|done].
        simpl. by rewrite <- app_assoc.
    + apply IH; [done|lia|].
      simpl. rewrite ?length_app. simpl. lia.
Qed.

(** The matcher computes the words of the pattern. *)
Lemma ends_spec r : anchorFree r = true -> stepSpec (ends r) (Lang r).
Proof.
  induction r as [c| |c|r1 IH1 r2 IH2|r1 IH1|r1 IH1|r1 IH1| | |];
    intros Haf i s j t; simpl in *; try done.
  - destruct s as [|d s]; simpl.
    + split; [done|]. intros (w & Hs & _ & ->). done.
    + case_bool_decide as Hd; simpl.
      * subst d. split.
        -- intros [[= <- <-]|[]]. exists [c]. split_and!; [done|simpl; lia|done].
        -- intros (w & Hs & -> & ->). simplify_eq/=. left. f_equal; simpl; lia.
      * split; [done|]. intros (w & Hs & _ & ->). simplify_eq/=.
  - destruct s as [|d s]; simpl.
    + split; [done|]. intros (w & Hs & _ & d & -> & _). done.
    + destruct (isLineTerminator d) eqn:Hd; simpl.
      * split; [done|]. intros (w & Hs & _ & d' & -> & Hd').
        simplify_eq/=. congruence.
      * split.
        -- intros [[= <- <-]|[]]. exists [d].
           split_and!; [done|simpl; lia|]. by exists d.
        -- intros (w & Hs & -> & d' & -> & Hd'). simplify_eq/=.
           left. f_equal; simpl; lia.
  - destruct s as [|d s]; simpl.
    + split; [done|]. intros (w & Hs & _ & d & -> & _). done.
    + case_bool_decide as Hd; simpl.
      * split; [done|]. intros (w & Hs & _ & d' & -> & Hd').
        simplify_eq/=.
      * split.
        -- intros [[= <- <-]|[]]. exists [d].
           split_and!; [done|simpl; lia|]. by exists d.
        -- intros (w & Hs & -> & d' & -> & Hd'). simplify_eq/=.
           left. f_equal; simpl; lia.
  - apply andb_true_iff in Haf as [Ha1 Ha2].
    specialize (IH1 Ha1). specialize (IH2 Ha2).
    rewrite in_flat_map. split.
    + intros [[k u] [Hy Hz]].
      apply IH1 in Hy as (w1 & -> & -> & Hw1).
      apply IH2 in Hz as (w2 & -> & -> & Hw2).
      exists (w1 ++ w2). rewrite length_app, <- app_assoc.
      split_and!; [done|simpl; lia|]. by exists w1, w2.
    + intros (w & -> & -> & w1 & w2 & -> & Hw1 & Hw2).
      exists (i + length w1, w2 ++ t). split.
      * apply IH1. exists w1. by rewrite <- app_assoc.
      * apply IH2. exists w2. rewrite length_app. split_and!; [done|simpl; lia|done].
  - specialize (IH1 Haf). rewrite in_app_iff. split.
    + intros [Hy|[[= <- <-]|[]]].
      * apply IH1 in Hy as (w & -> & -> & Hw). exists w. auto.
      * exists []. simpl. split_and!; [done|simpl; lia|by right].
    + intros (w & -> & -> & [Hw| ->]).
      * left. apply IH1. by exists w.
      * right. left. simpl. f_equal; simpl; lia.
  - specialize (IH1 Haf). split.
    + intros Hin. eapply starIter_sound in Hin as (ws & -> & -> & Hws); [|done].
      exists (concat ws). split_and!; [done..|]. by exists ws.
    + intros (w & -> & -> & ws & -> & Hws).
      by apply (starIter_complete _ _ IH1).
  - specialize (IH1 Haf). rewrite in_flat_map. split.
    + intros [[k u] [Hy Hz]].
      apply IH1 in Hy as (w1 & -> & -> & Hw1).
      eapply starIter_sound in Hz as (ws & -> & -> & Hws); [|done].
      exists (w1 ++ concat ws). rewrite length_app, <- app_assoc.
      split_and!; [done|simpl; lia|]. by exists w1, ws.
    + intros (w & -> & -> & w1 & ws & -> & Hw1 & Hws).
      exists (i + length w1, concat ws ++ t). split.
      * apply IH1. exists w1. by rewrite <- app_assoc.
      * apply (starIter_complete _ _ IH1); [done..|].
        rewrite length_app. lia.
  - split.
    + intros [[= <- <-]|[]]. exists []. simpl. split_and!; [done|simpl; lia|done].
    + intros (w & -> & -> & ->). left. simpl. f_equal; simpl; lia.
Qed.

End Matcher.

(** ** Sequences, literals and anchors *)

Section Sequences.

Local Open Scope nat_scope.

Lemma flat_map_singleton {A} (l : list A) : flat_map (λ y, [y]) l = l.
Proof. induction l as [|a l IH]; simpl; congruence. Qed.

Lemma ends_rseq_cons r rs x :
  ends (rseq (r :: rs)) x = flat_map (ends (rseq rs)) (ends r x).
Proof.
  destruct rs as [|r' rs]; [|done].
  cbn [rseq]. symmetry. apply (flat_map_singleton (ends r x)).
Qed.

Lemma ends_rseq_eol rs x z :
  In z (ends (rseq (rs ++ [REol])) x)
  ↔ In z (ends (rseq rs) x) ∧ snd z = [].
Proof.
  revert x. induction rs as [|r rs IH]; intros x.
  - simpl. destruct x as [i [|c s]]; simpl.
    + split; [intros [<-|[]]; auto|tauto].
    + split; [done|]. by intros [[<-|[]] Hnil].
  - change ((r :: rs) ++ [REol]) with (r :: (rs ++ [REol])).
    rewrite !ends_rseq_cons, !in_flat_map. split.
    + intros (y & Hy & Hz). apply IH in Hz as [Hz Hnil]. eauto.
    + intros [(y & Hy & Hz) Hnil]. exists y. split; [done|].
      apply IH. auto.
Qed.

Lemma Lang_rseq_cons r rs w :
  Lang (rseq (r :: rs)) w
  ↔ ∃ u v, w = u ++ v ∧ Lang r u ∧ Lang (rseq rs) v.
Proof.
  destruct rs as [|r' rs]; [|done]. simpl. split.
  - intros H. exists w, []. by rewrite app_nil_r.
  - intros (u & v & -> & Hu & ->). by rewrite app_nil_r.
Qed.

Lemma anchorFree_rseq rs :
  forallb anchorFree rs = true -> anchorFree (rseq rs) = true.
Proof.
  induction rs as [|r [|r' rs] IH]; simpl in *; [done|..].
  - by rewrite andb_true_r.
  - intros H. apply andb_true_iff in H as [-> H]. simpl. auto.
Qed.

(** A literal run matches itself and nothing else. *)
Lemma Lang_chars l w : Lang (rseq (map RChar l)) w ↔ w = l.
Proof.
  revert w. induction l as [|c l IH]; intros w; [done|].
  change (map RChar (c :: l)) with (RChar c :: map RChar l).
  rewrite Lang_rseq_cons. split.
  - intros (u & v & -> & Hu & Hv). apply IH in Hv. simpl in Hu.
    by subst.
  - intros ->. exists [c], l. split_and!; [done..|]. by apply IH.
Qed.

Lemma Lang_rlit str w : Lang (rlit str) w ↔ w = lit str.
Proof. apply Lang_chars. Qed.

(** Runs of single units: what a starred class matches. *)
Lemma concat_units (Q : N -> Prop) w :
  (∃ ws, w = concat ws
         ∧ Forall (λ u : jsstring, (∃ d, u = [d] ∧ Q d) ∧ u ≠ []) ws)
  ↔ Forall Q w.
Proof.
  split.
  - intros (ws & -> & Hws). induction Hws as [|u ws [(d & -> & Hd) _] _ IH].
    + constructor.
    + simpl. by constructor.
  - intros Hw. induction Hw as [|d w Hd _ (ws & -> & Hws)].
    + by exists [].
    + exists ([d] :: ws). split; [done|]. constructor; [|done].
      split; [by exists d|done].
Qed.

Lemma Lang_rsegment w : Lang rsegment w ↔ pathSegment w.
Proof.
  unfold rsegment, pathSegment. cbn [Lang]. split.
  - intros (u & ws & -> & (d & -> & Hd) & Hws).
    assert (Forall (λ c, c ≠ slash) (concat ws)) as Hall.
    { apply concat_units. by exists ws. }
    split; [done|]. simpl. intros Hin.
    apply elem_of_cons in Hin as [Heq|Hin]; [by subst|].
    rewrite Forall_forall in Hall. by apply (Hall _ Hin).
  - intros [Hne Hin]. destruct w as [|d w]; [done|].
    assert (Forall (λ c, c ≠ slash) w) as Hall.
    { apply Forall_forall. intros c Hc ->. apply Hin. by right. }
    apply concat_units in Hall as (ws & -> & Hws).
    exists [d], ws. split_and!; [done| |done].
    exists d. split; [done|]. intros ->. apply Hin. by left.
Qed.

Lemma Lang_any_star w : Lang (RStar RAny) w ↔ subpathText w.
Proof. unfold subpathText. cbn [Lang]. apply concat_units. Qed.

(** [exec] finds a match exactly when some start index has one. *)
Lemma firstMatch_None r s fuel i :
  firstMatch r fuel i s = None
  ↔ ∀ k, k ≤ fuel -> ends r (i + k, drop (i + k) s) = [].
Proof.
  revert i. induction fuel as [|f IH]; intros i; simpl.
  - destruct (ends r (i, drop i s)) eqn:He.
    + split; [|done]. intros _ k Hk. by replace (i + k) with i by lia.
    + split; [done|]. intros H. specialize (H 0 ltac:(lia)).
      rewrite Nat.add_0_r, He in H. by discriminate H.
  - destruct (ends r (i, drop i s)) eqn:He.
    + rewrite IH. split.
      * intros H k Hk. destruct k as [|k].
        -- by rewrite Nat.add_0_r.
        -- replace (i + S k) with (S i + k) by lia. apply H. lia.
      * intros H k Hk. replace (S i + k) with (i + S k) by lia.
        apply H. lia.
    + split; [done|]. intros H. specialize (H 0 ltac:(lia)).
      rewrite Nat.add_0_r, He in H. by discriminate H.
Qed.

Lemma firstMatch_Some r s fuel i x y :
  firstMatch r fuel i s = Some (x, y) ->
  ∃ k, x = (i + k, drop (i + k) s) ∧ In y (ends r x).
Proof.
  revert i. induction fuel as [|f IH]; intros i; simpl.
  - destruct (ends r (i, drop i s)) eqn:He; [done|].
    intros [= <- <-]. exists 0. rewrite Nat.add_0_r, He. split; [done|by left].
  - destruct (ends r (i, drop i s)) eqn:He.
    + intros Hm. apply IH in Hm as (k & -> & Hin).
      exists (S k). by replace (i + S k) with (S i + k) by lia.
    + intros [= <- <-]. exists 0. rewrite Nat.add_0_r, He. split; [done|by left].
Qed.

(** A pattern between [^] and [$] accepts an input exactly when the
    whole input is a word of what is between the anchors. *)
Lemma test_anchored rs s :
  forallb anchorFree rs = true ->
  test (rseq (RBol :: rs ++ [REol])) s = true ↔ Lang (rseq rs) s.
Proof.
  intros Haf. apply anchorFree_rseq in Haf.
  pose proof (ends_spec _ Haf) as Hspec.
  unfold test, exec. split.
  - destruct (firstMatch _ _ _ _) as [[x y]|] eqn:Hm; [intros _|done].
    apply firstMatch_Some in Hm as (k & -> & Hin).
    rewrite ends_rseq_cons in Hin. cbn [ends fst] in Hin.
    case_bool_decide as Hk; [|destruct Hin].
    simpl in Hk. subst k. simpl in Hin. rewrite app_nil_r in Hin.
    apply ends_rseq_eol in Hin as [Hz Hnil]. destruct y as [j t].
    simpl in Hnil. subst t. rewrite drop_0 in Hz.
    apply Hspec in Hz as (w & -> & _ & Hw). by rewrite app_nil_r.
  - intros Hw.
    destruct (firstMatch _ _ _ _) as [[x y]|] eqn:Hm; [done|].
    rewrite firstMatch_None in Hm. specialize (Hm 0 ltac:(lia)).
    change (0 + 0) with 0 in Hm.
    rewrite drop_0, ends_rseq_cons in Hm. cbn [ends fst] in Hm.
    rewrite bool_decide_eq_true_2 in Hm by done.
    cbn [flat_map] in Hm. rewrite app_nil_r in Hm.
    assert (In (length s, []) (ends (rseq (rs ++ [REol])) (0, s))) as Hin.
    { apply ends_rseq_eol. split; [|done]. apply Hspec.
      exists s. by rewrite app_nil_r. }
    destruct (eq_ind _ (λ l : list mstate, In (length s, []) l) Hin _ Hm).
Qed.

End Sequences.

(** ** The pattern and the grammar *)

Section Grammar.

Lemma pattern_parts :
  GITHUB_URL_PATTERN = rseq (RBol :: githubUrlParts ++ [REol]).
Proof. reflexivity. Qed.

Lemma Lang_tree_suffix w :
  Lang (ROpt (rseq [rlit "/tree/"; rsegment;
                    ROpt (RSeq (RChar slash) (RStar RAny))])) w
  ↔ treeSuffix w.
Proof.
  unfold treeSuffix. cbn [Lang]. split.
  - intros [H| ->]; [right|by left].
    apply Lang_rseq_cons in H as (u1 & v1 & -> & H1 & H).
    apply Lang_rlit in H1 as ->.
    apply Lang_rseq_cons in H as (ref & v2 & -> & Href & H).
    apply Lang_rsegment in Href. exists ref. split; [done|].
    cbn [rseq Lang] in H. destruct H as [(u & sub & -> & -> & Hsub)| ->].
    + right. exists sub. split; [|done]. by apply Lang_any_star.
    + left. by rewrite app_nil_r.
  - intros [->|(ref & Href & Hw)]; [by right|left].
    apply Lang_rseq_cons. exists (lit "/tree/").
    destruct Hw as [->|(sub & Hsub & ->)].
    + exists ref. split_and!; [done|by apply Lang_rlit|].
      apply Lang_rseq_cons. exists ref, []. rewrite app_nil_r.
      split_and!; [done|by apply Lang_rsegment|]. cbn [rseq Lang]. by right.
    + exists (ref ++ [slash] ++ sub). split_and!; [done|by apply Lang_rlit|].
      apply Lang_rseq_cons. exists ref, ([slash] ++ sub).
      split_and!; [done|by apply Lang_rsegment|]. cbn [rseq Lang]. left.
      exists [slash], sub. split_and!; [done..|]. by apply Lang_any_star.
Qed.

Lemma Lang_github_url s :
  Lang (rseq githubUrlParts) s ↔ repositoryReference s.
Proof.
  unfold githubUrlParts, repositoryReference. split.
  - intros H.
    apply Lang_rseq_cons in H as (u1 & v1 & -> & H1 & H).
    apply Lang_rlit in H1 as ->.
    apply Lang_rseq_cons in H as (u2 & v2 & -> & H2 & H).
    apply Lang_rseq_cons in H as (u3 & v3 & -> & H3 & H).
    apply Lang_rlit in H3 as ->.
    apply Lang_rseq_cons in H as (owner & v4 & -> & Howner & H).
    apply Lang_rsegment in Howner.
    apply Lang_rseq_cons in H as (u5 & v5 & -> & H5 & H).
    cbn [Lang] in H5. subst u5.
    apply Lang_rseq_cons in H as (repo & suffix & -> & Hrepo & H).
    apply Lang_rsegment in Hrepo.
    change (rseq [?r]) with r in H. apply Lang_tree_suffix in H.
    exists (lit "http" ++ u2), owner, repo, suffix.
    split_and!; [|done..|by rewrite <- !app_assoc].
    cbn [Lang] in H2. destruct H2 as [->| ->]; [by right|left].
    by rewrite app_nil_r.
  - intros (scheme & owner & repo & suffix & Hscheme & Ho & Hr & Hsuf & ->).
    apply Lang_rseq_cons. exists (lit "http").
    exists (drop 4 scheme ++ lit "://github.com/" ++ owner ++ [slash]
              ++ repo ++ suffix).
    split_and!; [by destruct Hscheme as [->| ->]|by apply Lang_rlit|].
    apply Lang_rseq_cons. exists (drop 4 scheme). eexists.
    split_and!; [done|cbn [Lang]; by destruct Hscheme as [->| ->]; [right|left]|].
    apply Lang_rseq_cons. exists (lit "://github.com/"). eexists.
    split_and!; [done|by apply Lang_rlit|].
    apply Lang_rseq_cons. exists owner. eexists.
    split_and!; [done|by apply Lang_rsegment|].
    apply Lang_rseq_cons. exists [slash]. eexists.
    split_and!; [done..|].
    apply Lang_rseq_cons. exists repo, suffix.
    split_and!; [done|by apply Lang_rsegment|].
    change (rseq [?r]) with r. by apply Lang_tree_suffix.
Qed.

(** The pattern accepts exactly the repository references. *)
Lemma test_pattern s :
  test GITHUB_URL_PATTERN s = true ↔ repositoryReference s.
Proof.
  rewrite pattern_parts, test_anchored by reflexivity.
  apply Lang_github_url.
Qed.

End Grammar.

(** ** Trimming *)

Section Trim.

Lemma trimStart_blank w : blank w -> trimStart w = [].
Proof. induction 1 as [|c w Hc _ IH]; simpl; [done|by rewrite Hc]. Qed.

Lemma trimStart_blank_app a s : blank a -> trimStart (a ++ s) = trimStart s.
Proof. induction 1 as [|c w Hc _ IH]; simpl; [done|by rewrite Hc]. Qed.

Lemma blank_rev w : blank w -> blank (rev w).
Proof. apply Forall_rev. Qed.

Lemma trimEnd_app_blank s b : blank b -> trimEnd (s ++ b) = trimEnd s.
Proof.
  intros Hb. unfold trimEnd. rewrite rev_app_distr.
  by rewrite trimStart_blank_app by by apply blank_rev.
Qed.

Lemma trimEnd_blank w : blank w -> trimEnd w = [].
Proof.
  intros Hw. unfold trimEnd. by rewrite trimStart_blank by by apply blank_rev.
Qed.

Lemma trim_app_blank s b : blank b -> trim (s ++ b) = trim s.
Proof.
  intros Hb. unfold trim. induction s as [|c s IH]; simpl.
  - rewrite trimStart_blank by done. done.
  - destruct (isWhiteSpace c); [done|].
    by apply (trimEnd_app_blank (c :: s)).
Qed.

(** Whitespace around a value does not change what [trim] gives. *)
Lemma trim_padding a s b : blank a -> blank b -> trim (a ++ s ++ b) = trim s.
Proof.
  intros Ha Hb. rewrite app_assoc, trim_app_blank by done.
  unfold trim. by rewrite trimStart_blank_app.
Qed.

Lemma trim_blank w : blank w -> trim w = [].
Proof. intros Hw. unfold trim. by rewrite trimStart_blank. Qed.

End Trim.

(** ** The validator of repository references *)

Section Validator.

(** C3.  For every string, both validators ([isValidGitHubUrl] of the
    page and [isValid] of the URL input) answer true exactly when the
    trimmed string is a repository reference of the grammar
    [scheme://github.com/owner/repo[/tree/ref[/subpath]]]; whitespace
    put before or after the string changes neither answer; and a
    blank string, the empty one included, is not valid. *)
Theorem validator_matches_grammar (s : jsstring) :
  (isValidGitHubUrl s = true ↔ repositoryReference (trim s))
  ∧ (isValid s = Some true ↔ repositoryReference (trim s))
  ∧ (∀ a b, blank a -> blank b ->
       isValidGitHubUrl (a ++ s ++ b) = isValidGitHubUrl s
       ∧ isValid (a ++ s ++ b) = isValid s)
  ∧ (blank s -> isValidGitHubUrl s = false ∧ isValid s = None)
  ∧ isValidGitHubUrl [] = false.
Proof.
  split_and!.
  - apply test_pattern.
  - unfold isValid. rewrite <- test_pattern.
    destruct (trim s) eqn:Ht; [by split|]. split; congruence.
  - intros a b Ha Hb. unfold isValidGitHubUrl, isValid.
    by rewrite trim_padding.
  - intros Hs. unfold isValidGitHubUrl, isValid.
    rewrite trim_blank by done. done.
  - reflexivity.
Qed.

Lemma validator_matches_grammar_witness :
  blank (lit "  ") ∧ blank [10; 160]
  ∧ isValidGitHubUrl
      (lit "  " ++ lit "https://github.com/acme/vault/tree/main/src"
         ++ [10; 160])
    = isValidGitHubUrl (lit "https://github.com/acme/vault/tree/main/src").
Proof.
  split_and!.
  - repeat constructor.
  - repeat constructor.
  - apply (validator_matches_grammar
             (lit "https://github.com/acme/vault/tree/main/src"));
      repeat constructor.
Defined.

End Validator.

(** ** The job history *)

Section History.

Local Open Scope nat_scope.

Variable cap : nat.

Lemma addRecentJob_sublist job (h : list RecentJob) :
  addRecentJob cap job h
    `sublist_of` job :: removeRecentJob (Job.job_id job) h.
Proof. apply sublist_take. Qed.

Lemma removeRecentJob_ids jobId (h : list RecentJob) :
  jobId ∉ Job.job_id <$> removeRecentJob jobId h.
Proof.
  intros Hin. apply list_elem_of_fmap in Hin as (j & -> & Hj).
  apply list_elem_of_filter in Hj as [Hne _]. done.
Qed.

Lemma removeRecentJob_NoDup jobId (h : list RecentJob) :
  NoDup (Job.job_id <$> h) -> NoDup (Job.job_id <$> removeRecentJob jobId h).
Proof.
  intros Hnd. eapply sublist_NoDup; [exact Hnd|].
  apply fmap_sublist, sublist_filter.
Qed.

Lemma removeRecentJob_absent jobId (h : list RecentJob) :
  jobId ∉ Job.job_id <$> h -> removeRecentJob jobId h = h.
Proof.
  intros Hnot. unfold removeRecentJob.
  induction h as [|j h IH]; [done|].
  rewrite fmap_cons, not_elem_of_cons in Hnot. destruct Hnot as [Hne Hnot].
  rewrite filter_cons_True by done. f_equal. by apply IH.
Qed.

Lemma addRecentJob_NoDup job (h : list RecentJob) :
  NoDup (Job.job_id <$> h) -> NoDup (Job.job_id <$> addRecentJob cap job h).
Proof.
  intros Hnd.
  eapply sublist_NoDup; [|apply fmap_sublist, addRecentJob_sublist].
  rewrite fmap_cons. apply NoDup_cons. split.
  - apply removeRecentJob_ids.
  - by apply removeRecentJob_NoDup.
Qed.

Lemma addRecentJob_length job (h : list RecentJob) :
  length (addRecentJob cap job h) ≤ cap.
Proof. unfold addRecentJob. rewrite length_take. lia. Qed.

(** Every history the page reaches from the empty one is free of
    duplicates and within the cap. *)
Lemma reachableHistory_invariant (h : list RecentJob) :
  reachableHistory cap h ->
  NoDup (Job.job_id <$> h) ∧ (h = [] ∨ length h ≤ cap).
Proof.
  induction 1 as [|job h _ [IHnd IHlen]|jobId h _ [IHnd IHlen]|h _ _].
  - split; [constructor|by left].
  - split; [by apply addRecentJob_NoDup|right; apply addRecentJob_length].
  - split; [by apply removeRecentJob_NoDup|].
    destruct IHlen as [->|IHlen]; [by left|right].
    unfold removeRecentJob. etrans; [apply length_filter|done].
  - split; [constructor|by left].
Qed.

End History.

(** C2.  For every job history without two records of the same [job_id]
    and every record, the history after [addRecentJob] has no two
    records of the same [job_id]; the added record is at the front and
    is the only one with its [job_id]; the length is at most the cap;
    what is dropped is a tail (the oldest records) of the list with the
    new record in front; [removeRecentJob] of an absent [job_id] gives
    the list back; and clearing gives the empty list. *)
Theorem history_operations (cap : nat) (job : RecentJob)
    (h : list RecentJob) :
  NoDup (Job.job_id <$> h) ->
  NoDup (Job.job_id <$> addRecentJob cap job h)
  ∧ (length (addRecentJob cap job h) ≤ cap)%nat
  ∧ (∃ evicted,
       job :: removeRecentJob (Job.job_id job) h
       = addRecentJob cap job h ++ evicted)
  ∧ ((0 < cap)%nat -> head (addRecentJob cap job h) = Some job)
  ∧ (∀ j, j ∈ addRecentJob cap job h ->
          Job.job_id j = Job.job_id job -> j = job)
  ∧ (∀ jobId, jobId ∉ Job.job_id <$> h -> removeRecentJob jobId h = h)
  ∧ clearRecentJobs h = [].
Proof.
  intros Hnd. split_and!.
  - by apply addRecentJob_NoDup.
  - apply addRecentJob_length.
  - exists (drop cap (job :: removeRecentJob (Job.job_id job) h)).
    unfold addRecentJob, removeRecentJob. by rewrite take_drop.
  - intros Hcap. destruct cap; [lia|done].
  - intros j Hj Hid.
    eapply elem_of_sublist in Hj; [|apply addRecentJob_sublist].
    apply elem_of_cons in Hj as [->|Hj]; [done|].
    apply list_elem_of_filter in Hj as [Hne _]. done.
  - intros jobId. apply removeRecentJob_absent.
  - done.
Qed.

Lemma history_operations_witness :
  NoDup (Job.job_id <$> [sampleJob "j2" "vault"; sampleJob "j1" "token"])
  ∧ addRecentJob 2 (sampleJob "j1" "token again")
      [sampleJob "j2" "vault"; sampleJob "j1" "token"]
    = [sampleJob "j1" "token again"; sampleJob "j2" "vault"]
  ∧ NoDup (Job.job_id <$>
             addRecentJob 2 (sampleJob "j1" "token again")
               [sampleJob "j2" "vault"; sampleJob "j1" "token"]).
Proof.
  assert (NoDup (Job.job_id <$>
                   [sampleJob "j2" "vault"; sampleJob "j1" "token"])) as Hnd.
  { refine (bool_decide_unpack _ _). vm_compute. exact I. }
  split_and!.
  - exact Hnd.
  - vm_compute. reflexivity.
  - exact (proj1 (history_operations 2 (sampleJob "j1" "token again")
                    [sampleJob "j2" "vault"; sampleJob "j1" "token"] Hnd)).
Defined.

(** ** The upload store *)

(** C10.  [clearUpload] puts [files], [packageName], [githubUrl] and
    [fromGitHub] back to their values at the start of the session and
    leaves [mode] as it is; cleared after a switch to the GitHub tab, the
    draft is the initial one but for its mode, and so is not the initial
    one. *)
Theorem clearUpload_keeps_mode (u : UploadState) :
  files (clearUpload u) = files initialUpload
  ∧ packageName (clearUpload u) = packageName initialUpload
  ∧ githubUrl (clearUpload u) = githubUrl initialUpload
  ∧ fromGitHub (clearUpload u) = fromGitHub initialUpload
  ∧ mode (clearUpload u) = mode u
  ∧ clearUpload u = setMode (mode u) initialUpload
  ∧ clearUpload (setMode Github u) = setMode Github initialUpload
  ∧ clearUpload (setMode Github u) ≠ initialUpload.
Proof. by split_and!. Qed.

(** ** Submitting from the page *)

Section Submission.

Local Arguments isValidGitHubUrl : simpl never.
Local Arguments trim : simpl never.
Local Arguments selectedLabel : simpl never.
Local Arguments lit : simpl never.
Local Arguments addRecentJob : simpl never.

Variable b : Backend.

(** Past its guards, [handleSubmit] is the [try] block between the two
    updates of the busy flag. *)
Lemma handleSubmit_guarded s :
  passesGuards s = true ->
  handleSubmit b s =
    setIsSubmitting false
      match tryBlock b s (setSubmitError None (setIsSubmitting true s)) with
      | (s', Resolved _) => s'
      | (s', Rejected e) => setSubmitError (Some (messageOf e)) s'
      end.
Proof.
  unfold passesGuards, handleSubmit.
  destruct (isAuthorized s); [cbn [negb andb]|done].
  intros Hg. destruct (mode (store s)).
  - rewrite bool_decide_eq_true_2 in Hg by done.
    apply andb_true_iff in Hg as [Hfs Hcount].
    apply bool_decide_eq_true in Hfs, Hcount.
    rewrite (bool_decide_eq_false_2 (files _ = None)) by done.
    rewrite (bool_decide_eq_false_2 (fileCount _ = O)) by lia.
    rewrite (bool_decide_eq_false_2 (Files = Github)) by done.
    by rewrite andb_false_r.
  - rewrite bool_decide_eq_false_2 in Hg by done.
    rewrite (bool_decide_eq_false_2 (Github = Files)) by done.
    by rewrite Hg, andb_false_r.
Qed.

(** The [try] block when the backend confirms the job. *)
Lemma tryBlock_resolved s s1 jobId :
  submissionOutcome b s = Resolved jobId ->
  ∃ calls,
    Forall (λ e, isSubmissionCall e = true) calls
    ∧ Exists (λ e, isNetworkCall e = true) calls
    ∧ tryBlock b s s1 =
        (routerPush (lit "/results?job_id=" ++ jobId)
           (setRecentJobs
              (addRecentJob (historyCap b) (submittedJob b s jobId)
                 (recentJobs s1))
              (emit (CallAddRecentJob (submittedJob b s jobId))
                 (emit (CallSetFromGitHub
                          (bool_decide (mode (store s) = Github)))
                    (withStore
                       (setFromGitHub
                          (bool_decide (mode (store s) = Github)))
                       (foldl (λ st e, emit e st) s1 calls))))),
         Resolved tt).
Proof.
  unfold submissionOutcome, tryBlock, submittedJob, bind, await, act, ret.
  destruct (mode (store s));
    [rewrite !(bool_decide_eq_false_2 (Files = Github)) by done
    |rewrite !(bool_decide_eq_true_2 (Github = Github)) by done]; cbn.
  - destruct (createZipFromFiles b _ _) as [zip|e] eqn:Hzip; [|done].
    intros Hjob.
    exists [CallCreateZip (default [] (files (store s)))
              (default (lit "files") (selectedLabel b (store s)));
            CallStartJob zip (model s) (trim (openaiKey s))].
    split_and!; [by repeat constructor|by apply Exists_cons_tl, Exists_cons_hd|].
    by rewrite Hjob.
  - intros Hjob.
    exists [CallStartJobFromGitHub (trim (githubUrl (store s))) (model s)
              (trim (openaiKey s))].
    split_and!; [by repeat constructor|by apply Exists_cons_hd|].
    by rewrite Hjob.
Qed.

(** The [try] block when the submission fails: only the calls are
    recorded. *)
Lemma tryBlock_rejected s s1 e :
  submissionOutcome b s = Rejected e ->
  ∃ calls,
    Forall (λ e, isSubmissionCall e = true) calls
    ∧ tryBlock b s s1 = (foldl (λ st e, emit e st) s1 calls, Rejected e).
Proof.
  unfold submissionOutcome, tryBlock, bind, await, act, ret.
  destruct (mode (store s));
    [rewrite !(bool_decide_eq_false_2 (Files = Github)) by done
    |rewrite !(bool_decide_eq_true_2 (Github = Github)) by done]; cbn.
  - destruct (createZipFromFiles b _ _) as [zip|e'] eqn:Hzip.
    + intros Hjob.
      exists [CallCreateZip (default [] (files (store s)))
                (default (lit "files") (selectedLabel b (store s)));
              CallStartJob zip (model s) (trim (openaiKey s))].
      split; [by repeat constructor|]. by rewrite Hjob.
    + intros [= ->].
      exists [CallCreateZip (default [] (files (store s)))
                (default (lit "files") (selectedLabel b (store s)))].
      split; [by repeat constructor|]. done.
  - intros Hjob.
    exists [CallStartJobFromGitHub (trim (githubUrl (store s))) (model s)
              (trim (openaiKey s))].
    split; [by repeat constructor|]. by rewrite Hjob.
Qed.

(** Short of its guards, [handleSubmit] does nothing, or only asks for
    the authorization. *)
Lemma handleSubmit_unguarded s :
  passesGuards s = false ->
  handleSubmit b s = s
  ∨ handleSubmit b s = setSubmitError (Some authorizeMessage) s.
Proof.
  unfold passesGuards, handleSubmit.
  destruct (isAuthorized s); [cbn [negb andb]|by right].
  intros Hg. left. destruct (mode (store s)).
  - rewrite bool_decide_eq_true_2 in Hg by done.
    rewrite (bool_decide_eq_true_2 (Files = Files)) by done.
    apply andb_false_iff in Hg as [Hfs|Hcount].
    + apply bool_decide_eq_false in Hfs.
      rewrite (bool_decide_eq_true_2 (files _ = None)); [done|].
      destruct (files (store s)); [|done]. by destruct Hfs.
    + apply bool_decide_eq_false in Hcount.
      rewrite (bool_decide_eq_true_2 (fileCount _ = O)) by lia.
      by rewrite orb_true_r.
  - rewrite bool_decide_eq_false_2 in Hg by done.
    rewrite (bool_decide_eq_false_2 (Github = Files)) by done.
    rewrite (bool_decide_eq_true_2 (Github = Github)) by done.
    by rewrite Hg.
Qed.

Lemma emits_store s calls :
  store (foldl (λ st e, emit e st) s calls) = store s
  ∧ recentJobs (foldl (λ st e, emit e st) s calls) = recentJobs s
  ∧ route (foldl (λ st e, emit e st) s calls) = route s
  ∧ submitError (foldl (λ st e, emit e st) s calls) = submitError s
  ∧ trace (foldl (λ st e, emit e st) s calls) = trace s ++ calls.
Proof.
  revert s. induction calls as [|e calls IH]; intros s; cbn.
  - by rewrite app_nil_r.
  - destruct (IH (emit e s)) as (-> & -> & -> & -> & ->). cbn.
    by rewrite <- app_assoc.
Qed.

End Submission.

Lemma submission_call_kinds calls :
  Forall (λ e, isSubmissionCall e = true) calls ->
  Forall (λ e, isDraftClear e = false ∧ isHistoryWrite e = false
               ∧ isErrorMessage e = false) calls.
Proof. intros H. eapply Forall_impl; [exact H|]. by intros []. Qed.

Lemma filter_none {A} (P : A -> Prop) `{!∀ x, Decision (P x)} (l : list A) :
  Forall (λ x, ¬ P x) l -> filter P l = [].
Proof.
  induction 1 as [|x l Hx _ IH]; [done|]. by rewrite filter_cons_False.
Qed.

(** C4.  Submitting in GitHub mode with a URL the validator refuses
    (such as [ftp://github.com/a/b]) is not offered by the button, calls
    neither submission endpoint, leaves the draft as it is and writes
    nothing to the job history. *)
Theorem invalid_url_not_submitted (b : Backend) (s : PageState) :
  mode (store s) = Github ->
  isValidGitHubUrl (githubUrl (store s)) = false ->
  canSubmit s = false
  ∧ recentJobs (handleSubmit b s) = recentJobs s
  ∧ store (handleSubmit b s) = store s
  ∧ Forall (λ e, isNetworkCall e = false ∧ isHistoryWrite e = false)
      (newEvents b s)
  ∧ isValidGitHubUrl (lit "ftp://github.com/a/b") = false.
Proof.
  intros Hmode Hurl. unfold newEvents.
  assert (passesGuards s = false) as Hg.
  { unfold passesGuards. rewrite Hmode, Hurl.
    rewrite bool_decide_eq_false_2 by done. apply andb_false_r. }
  split_and!.
  - unfold canSubmit. rewrite Hmode, Hurl.
    rewrite bool_decide_eq_false_2 by done. by destruct (_ || _).
  - by destruct (handleSubmit_unguarded b s Hg) as [-> | ->].
  - by destruct (handleSubmit_unguarded b s Hg) as [-> | ->].
  - destruct (handleSubmit_unguarded b s Hg) as [-> | ->].
    + by rewrite drop_all.
    + cbn [setSubmitError emit trace]. rewrite drop_app_length.
      by repeat constructor.
  - reflexivity.
Qed.

Lemma invalid_url_not_submitted_witness :
  recentJobs
    (handleSubmit confirmingBackend (pageWith (githubDraft "ftp://github.com/a/b")))
  = []
  ∧ newEvents confirmingBackend (pageWith (githubDraft "ftp://github.com/a/b"))
    = [].
Proof.
  split.
  - exact (proj1 (proj2 (invalid_url_not_submitted confirmingBackend
             (pageWith (githubDraft "ftp://github.com/a/b"))
             eq_refl eq_refl))).
  - vm_compute. reflexivity.
Defined.

(** What [handleSubmit] leaves behind when the submission fails. *)
Lemma handleSubmit_rejected (b : Backend) (s : PageState) (e : Thrown) :
  passesGuards s = true ->
  submissionOutcome b s = Rejected e ->
  ∃ calls,
    Forall (λ e, isSubmissionCall e = true) calls
    ∧ store (handleSubmit b s) = store s
    ∧ recentJobs (handleSubmit b s) = recentJobs s
    ∧ route (handleSubmit b s) = route s
    ∧ submitError (handleSubmit b s) = Some (messageOf e)
    ∧ isSubmitting (handleSubmit b s) = false
    ∧ newEvents b s =
        [CallSetIsSubmitting true; CallSetSubmitError None] ++ calls
          ++ [CallSetSubmitError (Some (messageOf e));
              CallSetIsSubmitting false].
Proof.
  intros Hg Hout. unfold newEvents. rewrite handleSubmit_guarded by done.
  destruct (tryBlock_rejected b s
              (setSubmitError None (setIsSubmitting true s)) e Hout)
    as (calls & Hcalls & ->).
  exists calls. split; [done|].
  cbn [setIsSubmitting setSubmitError emit store recentJobs route
       submitError isSubmitting trace].
  destruct (emits_store (setSubmitError None (setIsSubmitting true s)) calls)
    as (-> & -> & -> & _ & ->).
  cbn [setIsSubmitting setSubmitError emit store recentJobs route trace].
  split_and!; [done..|].
  rewrite <- !app_assoc. by rewrite drop_app_length.
Qed.

(** What [handleSubmit] leaves behind when the backend confirms the job. *)
Lemma handleSubmit_resolved (b : Backend) (s : PageState) (jobId : jsstring) :
  passesGuards s = true ->
  submissionOutcome b s = Resolved jobId ->
  ∃ calls,
    Forall (λ e, isSubmissionCall e = true) calls
    ∧ Exists (λ e, isNetworkCall e = true) calls
    ∧ store (handleSubmit b s)
      = setFromGitHub (bool_decide (mode (store s) = Github)) (store s)
    ∧ recentJobs (handleSubmit b s)
      = addRecentJob (historyCap b) (submittedJob b s jobId) (recentJobs s)
    ∧ route (handleSubmit b s) = Some (lit "/results?job_id=" ++ jobId)
    ∧ newEvents b s =
        [CallSetIsSubmitting true; CallSetSubmitError None] ++ calls
          ++ [CallSetFromGitHub (bool_decide (mode (store s) = Github));
              CallAddRecentJob (submittedJob b s jobId);
              CallSetRecentJobs
                (addRecentJob (historyCap b) (submittedJob b s jobId)
                   (recentJobs s));
              CallRouterPush (lit "/results?job_id=" ++ jobId);
              CallSetIsSubmitting false].
Proof.
  intros Hg Hout. unfold newEvents. rewrite handleSubmit_guarded by done.
  destruct (tryBlock_resolved b s
              (setSubmitError None (setIsSubmitting true s)) jobId Hout)
    as (calls & Hcalls & Hnet & ->).
  exists calls. split; [done|]. split; [done|].
  cbn [setIsSubmitting setSubmitError setRecentJobs routerPush withStore
       emit store recentJobs route submitError isSubmitting trace].
  destruct (emits_store (setSubmitError None (setIsSubmitting true s)) calls)
    as (-> & _ & _ & _ & ->).
  cbn [setIsSubmitting setSubmitError emit store recentJobs route trace].
  split_and!; [done..|].
  rewrite <- !app_assoc. by rewrite drop_app_length.
Qed.




(** C1 as stated fails: after a confirmed submission in GitHub mode the
    history holds the new record while the draft still holds the URL
    and has [fromGitHub] set; after one in files mode the draft still
    holds the files and the package name.  No draft is cleared. *)
Lemma confirmed_submission_not_cleared :
  (Job.job_id <$> recentJobs (handleSubmit confirmingBackend githubPage)
   = [lit "job-github"]
   ∧ githubUrl (store (handleSubmit confirmingBackend githubPage))
     = lit "https://github.com/acme/vault"
   ∧ fromGitHub (store (handleSubmit confirmingBackend githubPage)) = true
   ∧ ¬ draftCleared (store (handleSubmit confirmingBackend githubPage)))
  ∧ (Job.job_id <$> recentJobs (handleSubmit confirmingBackend filesPage)
     = [lit "job-files"]
     ∧ files (store (handleSubmit confirmingBackend filesPage))
       = files filesDraft
     ∧ ¬ draftCleared (store (handleSubmit confirmingBackend filesPage))).
Proof.
  split; split_and!; try (vm_compute; reflexivity).
  - intros (_ & _ & Hurl & _). vm_compute in Hurl. discriminate Hurl.
  - intros (Hfiles & _). vm_compute in Hfiles. discriminate Hfiles.
Qed.

(** C1, amended.  After a submission the backend confirms, the draft is
    not cleared: [mode], [files], [packageName] and [githubUrl] are as
    they were and [fromGitHub] tells whether the submission was made in
    GitHub mode.  The record of the job is added to the history after
    the submission call has answered and after [fromGitHub] is set; the
    page then moves to the results of the job, and no clearing of the
    draft takes place. *)
Theorem confirmed_submission_keeps_draft (b : Backend) (s : PageState)
    (jobId : jsstring) :
  passesGuards s = true ->
  submissionOutcome b s = Resolved jobId ->
  store (handleSubmit b s)
  = setFromGitHub (bool_decide (mode (store s) = Github)) (store s)
  ∧ recentJobs (handleSubmit b s)
    = addRecentJob (historyCap b) (submittedJob b s jobId) (recentJobs s)
  ∧ route (handleSubmit b s) = Some (lit "/results?job_id=" ++ jobId)
  ∧ (∃ calls,
       Forall (λ e, isSubmissionCall e = true) calls
       ∧ Exists (λ e, isNetworkCall e = true) calls
       ∧ newEvents b s =
           [CallSetIsSubmitting true; CallSetSubmitError None] ++ calls
             ++ [CallSetFromGitHub (bool_decide (mode (store s) = Github));
                 CallAddRecentJob (submittedJob b s jobId);
                 CallSetRecentJobs
                   (addRecentJob (historyCap b) (submittedJob b s jobId)
                      (recentJobs s));
                 CallRouterPush (lit "/results?job_id=" ++ jobId);
                 CallSetIsSubmitting false])
  ∧ Forall (λ e, isDraftClear e = false) (newEvents b s).
Proof.
  intros Hg Hout.
  destruct (handleSubmit_resolved b s jobId Hg Hout)
    as (calls & Hcalls & Hnet & Hstore & Hjobs & Hroute & Hev).
  split_and!; [done..| |].
  - by exists calls.
  - rewrite Hev. apply submission_call_kinds in Hcalls.
    repeat (apply Forall_app; split); [by repeat constructor| |by repeat constructor].
    eapply Forall_impl; [exact Hcalls|]. by intros ev (-> & _ & _).
Qed.

Lemma confirmed_submission_keeps_draft_witness :
  store (handleSubmit confirmingBackend githubPage)
  = setFromGitHub true (githubDraft "https://github.com/acme/vault").
Proof.
  exact (proj1 (confirmed_submission_keeps_draft confirmingBackend
           githubPage (lit "job-github") eq_refl eq_refl)).
Defined.

(** ** The launcher *)

Section LauncherFacts.

Import Launcher.
Local Open Scope string_scope.
Local Open Scope nat_scope.

(** With the required variables set and the output directories made,
    the script is at the check of its timeout. *)
Lemma launcher_after_setup env sys :
  requiredSet env = true ->
  mkdirOutputDirs sys = 0 ->
  ∃ submissionDir,
    SUBMISSION_DIR env = Some submissionDir
    ∧ launcher env sys =
        if negb (allDigits (timeoutSeconds env)) then
          {| exitStatus := 2;
             stderrLines :=
               ["invalid EVM_BENCH_PI_TIMEOUT_SECONDS=" ++ timeoutSeconds env] |}
        else
          command (cpInstructions sys) (
          command (rmOldReports sys) (
          command (mkdirConfigDir sys) (
          command (writeModelsJson sys) (
          if negb (auditJsonNonEmpty sys) && negb (auditMdNonEmpty sys) then
            {| exitStatus := 2;
               stderrLines := [missingOutputMessage submissionDir] |}
          else {| exitStatus := 0; stderrLines := [] |})))).
Proof.
  destruct env as [a1 a2 a3 a4 a5 a6 a7 t].
  unfold requiredSet, isSet, launcher, timeoutSeconds.
  cbn [AGENT_DIR SUBMISSION_DIR LOGS_DIR PI_API_KEY PI_MODEL PI_BASE_URL
       EVM_BENCH_DETECT_MD EVM_BENCH_PI_TIMEOUT_SECONDS].
  intros Hreq Hmk.
  destruct a1 as [[|c1 r1]|]; [done| |done].
  destruct a2 as [[|c2 r2]|]; [done| |done].
  destruct a3 as [[|c3 r3]|]; [done| |done].
  destruct a4 as [[|c4 r4]|]; [done| |done].
  destruct a5 as [[|c5 r5]|]; [done| |done].
  destruct a6 as [[|c6 r6]|]; [done| |done].
  destruct a7 as [[|c7 r7]|]; [done| |done].
  exists (String c2 r2). split; [done|].
  cbn [required]. unfold command at 1, commandOrTrue.
  by rewrite bool_decide_eq_true_2.
Qed.

Lemma occursIn_intro before needle after :
  occursIn needle (before ++ needle ++ after).
Proof. by exists before, after. Qed.

Lemma append_assoc (a b c : string) : (a ++ b) ++ c = a ++ b ++ c.
Proof. induction a as [|x a IH]; simpl; [done|by rewrite IH]. Qed.

Lemma missingOutputMessage_names dir :
  occursIn "audit.json" (missingOutputMessage dir)
  ∧ occursIn "audit.md" (missingOutputMessage dir).
Proof.
  unfold missingOutputMessage. split.
  - exists ("missing expected output: " ++ dir ++ "/"), " or audit.md".
    by rewrite !append_assoc.
  - exists ("missing expected output: " ++ dir ++ "/audit.json or "), "".
    by rewrite !append_assoc.
Qed.

End LauncherFacts.

(** C6 as stated fails.  With the timeout variable set to the empty
    string, which is not a number, the script takes the default and
    ends with status 0 when a report is there; and when the copy of the
    instructions fails, the script ends with the status of [cp], neither
    0 nor 2, though a report is there. *)
Lemma launcher_status_counterexample :
  (Launcher.EVM_BENCH_PI_TIMEOUT_SECONDS LauncherSamples.emptyTimeoutEnv
   = Some EmptyString
   ∧ Launcher.allDigits EmptyString = false
   ∧ Launcher.exitStatus
       (Launcher.launcher LauncherSamples.emptyTimeoutEnv
          LauncherSamples.reportWritten) = 0%nat)
  ∧ (Launcher.allDigits (Launcher.timeoutSeconds LauncherSamples.tenMinutesEnv)
     = true
     ∧ Launcher.auditMdNonEmpty LauncherSamples.copyFails = true
     ∧ Launcher.exitStatus
         (Launcher.launcher LauncherSamples.tenMinutesEnv
            LauncherSamples.copyFails) = 1%nat).
Proof. by vm_compute. Qed.

(** C6, amended.  Provided the required variables are set and not empty
    and the output directories can be made: the timeout is 10800 when
    its variable is unset or empty; when it is not a non-empty run of
    decimal digits the script ends with status 2; otherwise, provided
    the remaining set-up commands succeed, the script ends with status
    2 and a message naming [audit.json] and [audit.md] when neither
    report is a non-empty file after the run, and with status 0 when one
    of them is.  How the agent ended, by itself or killed on timeout,
    changes nothing of this. *)
Theorem launcher_exit_status (env : Launcher.Env) (sys : Launcher.Sys) :
  Launcher.requiredSet env = true ->
  Launcher.mkdirOutputDirs sys = 0%nat ->
  (Launcher.EVM_BENCH_PI_TIMEOUT_SECONDS env = None
   ∨ Launcher.EVM_BENCH_PI_TIMEOUT_SECONDS env = Some EmptyString ->
   Launcher.timeoutSeconds env = "10800"%string)
  ∧ (Launcher.allDigits (Launcher.timeoutSeconds env) = false ->
     Launcher.exitStatus (Launcher.launcher env sys) = 2%nat)
  ∧ (Launcher.allDigits (Launcher.timeoutSeconds env) = true ->
     Launcher.laterSetupSucceeds sys = true ->
     (Launcher.auditJsonNonEmpty sys = false ->
      Launcher.auditMdNonEmpty sys = false ->
      Launcher.exitStatus (Launcher.launcher env sys) = 2%nat
      ∧ ∃ line,
          Launcher.stderrLines (Launcher.launcher env sys) = [line]
          ∧ Launcher.occursIn "audit.json" line
          ∧ Launcher.occursIn "audit.md" line)
     ∧ (Launcher.auditJsonNonEmpty sys || Launcher.auditMdNonEmpty sys = true ->
        Launcher.exitStatus (Launcher.launcher env sys) = 0%nat))
  ∧ (∀ run,
       Launcher.launcher env (Launcher.withAgent run sys)
       = Launcher.launcher env sys).
Proof.
  intros Hreq Hmk.
  destruct (launcher_after_setup env sys Hreq Hmk) as (dir & Hdir & Hrun).
  split_and!.
  - unfold Launcher.timeoutSeconds. by intros [-> | ->].
  - intros Hbad. by rewrite Hrun, Hbad.
  - intros Hok Hsetup. rewrite Hrun, Hok. cbn [negb].
    unfold Launcher.laterSetupSucceeds in Hsetup.
    repeat (apply andb_true_iff in Hsetup as [Hsetup ?]).
    unfold Launcher.command. rewrite Hsetup.
    repeat match goal with H : bool_decide _ = true |- _ => rewrite H; clear H end.
    split.
    + intros -> ->. split; [done|].
      exists (Launcher.missingOutputMessage dir). split; [done|].
      apply missingOutputMessage_names.
    + by destruct (Launcher.auditJsonNonEmpty sys),
         (Launcher.auditMdNonEmpty sys).
  - reflexivity.
Qed.

Lemma launcher_exit_status_witness :
  Launcher.exitStatus
    (Launcher.launcher LauncherSamples.badTimeoutEnv
       LauncherSamples.reportWritten) = 2%nat
  ∧ Launcher.exitStatus
      (Launcher.launcher LauncherSamples.tenMinutesEnv
         LauncherSamples.nothingWritten) = 2%nat
  ∧ Launcher.exitStatus
      (Launcher.launcher LauncherSamples.tenMinutesEnv
         LauncherSamples.reportWritten) = 0%nat.
Proof.
  split_and!.
  - exact (proj1 (proj2 (launcher_exit_status LauncherSamples.badTimeoutEnv
             LauncherSamples.reportWritten eq_refl eq_refl)) eq_refl).
  - exact (proj1 (proj1 (proj1 (proj2 (proj2 (launcher_exit_status
             LauncherSamples.tenMinutesEnv LauncherSamples.nothingWritten
             eq_refl eq_refl))) eq_refl eq_refl) eq_refl eq_refl)).
  - exact (proj2 (proj1 (proj2 (proj2 (launcher_exit_status
             LauncherSamples.tenMinutesEnv LauncherSamples.reportWritten
             eq_refl eq_refl))) eq_refl eq_refl) eq_refl).
Defined.

(** ** Lines of a text *)

Section Lines.

Lemma splitLines_nonempty s : splitLines s ≠ [].
Proof.
  destruct s as [|c s]; cbn [splitLines]; [done|].
  case_bool_decide; [done|]. by destruct (splitLines s).
Qed.

Lemma splitLines_app_newline a b :
  splitLines (a ++ newline :: b) = splitLines a ++ splitLines b.
Proof.
  induction a as [|c a IH]; cbn [app splitLines].
  - by rewrite bool_decide_eq_true_2.
  - case_bool_decide; [by rewrite IH|]. rewrite IH.
    pose proof (splitLines_nonempty a). by destruct (splitLines a).
Qed.

Lemma splitLines_join p parts :
  splitLines (join [newline] (p :: parts))
  = flat_map splitLines (p :: parts).
Proof.
  revert p. induction parts as [|q parts IH]; intros p.
  - simpl. by rewrite app_nil_r.
  - change (join [newline] (p :: q :: parts))
      with (p ++ newline :: join [newline] (q :: parts)).
    rewrite splitLines_app_newline, IH. done.
Qed.

Lemma splitLines_single s : newline ∉ s -> splitLines s = [s].
Proof.
  induction s as [|c s IH]; [done|]. intros Hnot.
  apply not_elem_of_cons in Hnot as [Hc Hs]. cbn [splitLines].
  rewrite bool_decide_eq_false_2 by done. by rewrite IH.
Qed.

(** A line of a part is a line of the joined text. *)
Lemma line_of_part parts p line :
  p ∈ parts -> In line (splitLines p) ->
  In line (splitLines (join [newline] parts)).
Proof.
  intros Hp Hline. destruct parts as [|q parts]; [by apply elem_of_nil in Hp|].
  rewrite splitLines_join. apply in_flat_map. exists p.
  split; [by apply list_elem_of_In|done].
Qed.

Lemma lit_app_no_newline (prefix : string) (s : jsstring) :
  newline ∉ lit prefix -> newline ∉ s -> newline ∉ lit prefix ++ s.
Proof. intros H1 H2 Hin. apply elem_of_app in Hin as [?|?]; done. Qed.

End Lines.

(** ** The exporter *)

Section Exporter.

Local Open Scope nat_scope.



End Exporter.

(** Membership of a given line in a given text, by evaluation. *)
Ltac in_lines :=
  apply list_elem_of_In; refine (bool_decide_unpack _ _);
  vm_compute; exact I.



(** C8.  The aggregate report of no vulnerability, with any job
    identifier, contains the line "**Total Vulnerabilities:** 0"; it is
    the header alone: title, the job identifier when there is one, the
    total, the empty summary and the rule, with no section after it; and
    when the job identifier holds no line break, no line of the report
    starts a section ("## "). *)
Theorem empty_report (jobId : option jsstring) :
  In (lit "**Total Vulnerabilities:** 0")
    (splitLines (generateAllVulnerabilitiesMarkdown [] jobId))
  ∧ generateAllVulnerabilitiesMarkdown [] jobId
    = join [newline]
        ([lit "# Security Audit Report"; []]
           ++ (if truthy jobId
               then [lit "**Job ID:** " ++ default [] jobId; []] else [])
           ++ [lit "**Total Vulnerabilities:** 0"; [];
               lit "### Summary by Severity"; []; []; lit "---"; []])
  ∧ (newline ∉ default [] jobId ->
     Forall (λ line, startsWith (lit "## ") line = false)
       (splitLines (generateAllVulnerabilitiesMarkdown [] jobId))).
Proof.
  assert (generateAllVulnerabilitiesMarkdown [] jobId
          = join [newline]
              ([lit "# Security Audit Report"; []]
                 ++ (if truthy jobId
                     then [lit "**Job ID:** " ++ default [] jobId; []] else [])
                 ++ [lit "**Total Vulnerabilities:** 0"; [];
                     lit "### Summary by Severity"; []; []; lit "---"; []]))
    as Heq.
  { unfold generateAllVulnerabilitiesMarkdown, reportPreamble.
    cbn [flat_map]. rewrite app_nil_r. done. }
  split_and!.
  - rewrite Heq.
    eapply (line_of_part _ (lit "**Total Vulnerabilities:** 0"));
      [|in_lines].
    apply elem_of_app. right. apply elem_of_app. right.
    apply list_elem_of_here.
  - exact Heq.
  - intros Hnl. rewrite Heq.
    change ([lit "# Security Audit Report"; []] ++ ?l)
      with (lit "# Security Audit Report" :: [] :: l).
    rewrite splitLines_join.
    destruct (truthy jobId).
    + cbn [app flat_map].
      rewrite (splitLines_single (lit "**Job ID:** " ++ default [] jobId)).
      * vm_compute. repeat constructor.
      * apply lit_app_no_newline; [|done]. vm_compute.
        intros Hin. repeat (apply elem_of_cons in Hin as [Hin|Hin]; [done|]).
        by apply elem_of_nil in Hin.
    + vm_compute. repeat constructor.
Qed.

Lemma empty_report_witness :
  (newline ∉ default [] (Some (lit "3f2a9c1e")))
  ∧ Forall (λ line, startsWith (lit "## ") line = false)
      (splitLines
         (generateAllVulnerabilitiesMarkdown [] (Some (lit "3f2a9c1e")))).
Proof.
  assert (newline ∉ default [] (Some (lit "3f2a9c1e"))) as Hnl.
  { refine (bool_decide_unpack _ _). vm_compute. exact I. }
  split; [exact Hnl|].
  exact (proj2 (proj2 (empty_report (Some (lit "3f2a9c1e")))) Hnl).
Defined.

(** C9 as stated fails: the identifier goes into the file name as it
    is, so a slash and a colon in it reach the file name. *)
Lemma filename_not_restricted :
  snd (downloadVulnerability slashedId)
  = lit "src/Vault.sol:1-Unchecked-call--1-.md"
  ∧ ¬ Forall (λ c, restrictedUnit c = true)
        (snd (downloadVulnerability slashedId)).
Proof.
  split; [by vm_compute|].
  intros Hall. apply Forall_forall with (x := slash) in Hall.
  - by vm_compute in Hall.
  - refine (bool_decide_unpack _ _). vm_compute. exact I.
Qed.

(** C9, amended.  The file name of the single export is the identifier
    of the vulnerability as it is, a hyphen, the first 30 code units of
    the title with every unit that is not an ASCII letter or digit
    replaced by a hyphen, and ".md"; the title part holds only ASCII
    letters, digits and hyphens, so the whole name is within the
    restricted set whenever the identifier is.  The file name of the
    aggregate export is "audit-report-", the first 8 code units of the
    job identifier and ".md", or "audit-report.md" without one. *)
Theorem export_filenames (vuln : Vulnerability) :
  snd (downloadVulnerability vuln)
  = Vuln.id vuln ++ lit "-" ++ sanitizedTitle vuln ++ lit ".md"
  ∧ Forall (λ c, isAlphaNum c = true ∨ c = hyphen) (sanitizedTitle vuln)
  ∧ length (sanitizedTitle vuln) = (length (Vuln.title vuln) `min` 30)%nat
  ∧ (∀ i c, (i < 30)%nat -> Vuln.title vuln !! i = Some c ->
            sanitizedTitle vuln !! i
            = Some (if isAlphaNum c then c else hyphen))
  ∧ (Forall (λ c, restrictedUnit c = true) (Vuln.id vuln) ->
     Forall (λ c, restrictedUnit c = true) (snd (downloadVulnerability vuln)))
  ∧ (∀ vulnerabilities jobId,
       snd (downloadAllVulnerabilities vulnerabilities jobId)
       = if truthy jobId
         then lit "audit-report-" ++ take 8 (default [] jobId) ++ lit ".md"
         else lit "audit-report.md").
Proof.
  assert (Forall (λ c, isAlphaNum c = true ∨ c = hyphen) (sanitizedTitle vuln))
    as Hsan.
  { unfold sanitizedTitle. apply Forall_fmap, Forall_true. intros c.
    unfold sanitizeUnit. simpl. destruct (isAlphaNum c) eqn:Hc; auto. }
  split_and!.
  - done.
  - exact Hsan.
  - unfold sanitizedTitle. rewrite length_map, length_take. lia.
  - intros i c Hi Hc. unfold sanitizedTitle.
    unfold jsstring in *.
    etrans; [apply (list_lookup_fmap sanitizeUnit)|].
    rewrite lookup_take_lt by done. by rewrite Hc.
  - intros Hid. cbn [downloadVulnerability snd].
    repeat (apply Forall_app; split); [done|by vm_compute; repeat constructor| |
                                       by vm_compute; repeat constructor].
    eapply Forall_impl; [exact Hsan|]. intros c [Hc| ->].
    + unfold restrictedUnit. by rewrite Hc.
    + done.
  - done.
Qed.

Lemma export_filenames_witness :
  Forall (λ c, restrictedUnit c = true) (Vuln.id reentrancy)
  ∧ snd (downloadVulnerability reentrancy) = lit "V-1-Reentrancy.md"
  ∧ Forall (λ c, restrictedUnit c = true)
      (snd (downloadVulnerability reentrancy)).
Proof.
  assert (Forall (λ c, restrictedUnit c = true) (Vuln.id reentrancy)) as Hid.
  { vm_compute. repeat constructor. }
  split_and!; [exact Hid|by vm_compute|].
  exact (proj1 (proj2 (proj2 (proj2 (proj2 (export_filenames reentrancy)))))
           Hid).
Defined.

(** ** The definitions at work *)

Example valid_plain_repository :
  isValidGitHubUrl (lit "https://github.com/acme/vault") = true.
Proof. vm_compute. reflexivity. Qed.

Example valid_tree_subpath_padded :
  isValidGitHubUrl (lit "  http://github.com/acme/vault/tree/main/src/x ")
  = true.
Proof. vm_compute. reflexivity. Qed.

Example invalid_trailing_slash :
  isValidGitHubUrl (lit "https://github.com/acme/vault/") = false.
Proof. vm_compute. reflexivity. Qed.

Example invalid_line_break_in_subpath :
  isValidGitHubUrl (lit "https://github.com/a/b/tree/c/x" ++ [newline; 121])
  = false.
Proof. vm_compute. reflexivity. Qed.

Example blank_value_is_neither :
  isValid (lit "   ") = None ∧ hasValue (lit "   ") = false.
Proof. vm_compute. done. Qed.

Example label_of_repository :
  selectedLabel confirmingBackend
    (githubDraft "https://github.com/acme/vault.git")
  = Some (lit "vault").
Proof. vm_compute. reflexivity. Qed.

Example label_of_files :
  selectedLabel confirmingBackend filesDraft = Some (lit "Token").
Proof. vm_compute. reflexivity. Qed.

Example entries_indices_first :
  fst <$> objectEntries [(lit "high", 2); (lit "10", 1); (lit "9", 1)]
  = [lit "9"; lit "10"; lit "high"].
Proof. vm_compute. reflexivity. Qed.

Example reentrancy_lines :
  take 4 (splitLines (generateVulnerabilityMarkdown reentrancy))
  = [lit "# Vulnerability Report"; []; lit "## V-1: Reentrancy"; []].
Proof. vm_compute. reflexivity. Qed.

(** * Further properties *)

(** ** The upload store: what each action leaves alone *)

(** Switching the mode keeps what either tab holds: the files, the
    package name, the URL and [fromGitHub] are as before; switching
    twice is switching once, and switching back gives the draft back. *)
Theorem setMode_keeps_both_tabs (m m' : UploadMode) (u : UploadState) :
  files (setMode m u) = files u
  ∧ packageName (setMode m u) = packageName u
  ∧ githubUrl (setMode m u) = githubUrl u
  ∧ fromGitHub (setMode m u) = fromGitHub u
  ∧ setMode m (setMode m' u) = setMode m u
  ∧ setMode (mode u) (setMode m u) = u.
Proof. destruct u. by split_and!. Qed.

(** [clearUpload] wipes both tabs at once: whatever was selected, typed
    or flagged before, the cleared draft is the same, so the clear
    control of the file uploader also drops a URL typed in the other
    tab; clearing twice is clearing once. *)
Theorem clearUpload_absorbs (u : UploadState) (fs : option (list File))
    (pn : option jsstring) (url : jsstring) (flag : bool) :
  clearUpload (setUpload fs pn u) = clearUpload u
  ∧ clearUpload (setGitHubUrl url u) = clearUpload u
  ∧ clearUpload (setFromGitHub flag u) = clearUpload u
  ∧ clearUpload (clearUpload u) = clearUpload u
  ∧ githubUrl (clearUpload (setGitHubUrl url u)) = [].
Proof. by split_and!. Qed.

(** ** Trimming, further *)

Section TrimFacts.

Lemma trimStart_nil_blank w : trimStart w = [] -> blank w.
Proof.
  induction w as [|c w IH]; cbn [trimStart]; [constructor|].
  destruct (isWhiteSpace c) eqn:Hc; [|done].
  intros Hw. constructor; [done|by apply IH].
Qed.

Lemma trimStart_split s : ∃ a, blank a ∧ s = a ++ trimStart s.
Proof.
  induction s as [|c s (a & Ha & IH)].
  { exists []. split; [constructor|done]. }
  cbn [trimStart]. destruct (isWhiteSpace c) eqn:Hc.
  - exists (c :: a). split; [by constructor|]. cbn [app]. by f_equal.
  - exists []. split; [constructor|done].
Qed.

Lemma trimStart_head s c t :
  trimStart s = c :: t -> isWhiteSpace c = false.
Proof.
  induction s as [|d s IH]; cbn [trimStart]; [done|].
  destruct (isWhiteSpace d) eqn:Hd; [done|]. by intros [= <- _].
Qed.

Lemma trimStart_fixed c t :
  isWhiteSpace c = false -> trimStart (c :: t) = c :: t.
Proof. intros Hc. cbn [trimStart]. by rewrite Hc. Qed.

Lemma trimStart_idempotent s : trimStart (trimStart s) = trimStart s.
Proof.
  destruct (trimStart s) as [|c t] eqn:Hs; [done|].
  apply trimStart_fixed. by eapply trimStart_head.
Qed.

Lemma trimEnd_split u : ∃ b, blank b ∧ u = trimEnd u ++ b.
Proof.
  destruct (trimStart_split (rev u)) as (a & Ha & Hu).
  exists (rev a). split; [by apply Forall_rev|].
  unfold trimEnd. rewrite <- rev_app_distr, <- Hu. by rewrite rev_involutive.
Qed.

Lemma trimEnd_idempotent u : trimEnd (trimEnd u) = trimEnd u.
Proof.
  unfold trimEnd. rewrite rev_involutive. by rewrite trimStart_idempotent.
Qed.

Lemma trim_nil_blank s : trim s = [] -> blank s.
Proof.
  unfold trim. intros Ht.
  destruct (trimStart_split s) as (a & Ha & Hs).
  destruct (trimEnd_split (trimStart s)) as (b' & Hb & Hu).
  rewrite Ht in Hu. cbn [app] in Hu. rewrite Hs, Hu.
  by apply Forall_app.
Qed.

(** What [trim] gives has no whitespace left to strip. *)
Lemma trim_idempotent s : trim (trim s) = trim s.
Proof.
  unfold trim at 1. fold (trim s).
  assert (trimStart (trim s) = trim s) as ->; [|apply trimEnd_idempotent].
  unfold trim.
  destruct (trimStart s) as [|c u] eqn:Hs; [done|].
  pose proof (trimStart_head _ _ _ Hs) as Hc.
  destruct (trimEnd_split (c :: u)) as (b' & Hb & Hu).
  destruct (trimEnd (c :: u)) as [|c' t] eqn:Ht.
  - cbn [app] in Hu. subst b'. apply Forall_cons in Hb as [Hc' _]. congruence.
  - cbn [app] in Hu. injection Hu as <- _. by apply trimStart_fixed.
Qed.

End TrimFacts.

(** ** The URL input *)

(** The input shows its clear control exactly when it shows a verdict:
    [isValid] is [null] exactly for a blank value, which is when
    [hasValue] is false; for any other value the verdict is that of
    the page's validator, so the input and the submit button never
    disagree. *)
Theorem url_input_verdict (value : jsstring) :
  (isValid value = None ↔ hasValue value = false)
  ∧ (hasValue value = false ↔ blank value)
  ∧ (hasValue value = true -> isValid value = Some (isValidGitHubUrl value))
  ∧ isValid [] = None.
Proof.
  unfold isValid, hasValue, isValidGitHubUrl. split_and!.
  - destruct (trim value) eqn:Ht; cbn [length].
    + by rewrite bool_decide_eq_false_2 by lia.
    + rewrite bool_decide_eq_true_2 by lia. by split.
  - split.
    + intros Hv. apply bool_decide_eq_false in Hv. apply trim_nil_blank.
      destruct (trim value); [done|]. cbn [length] in Hv. lia.
    + intros Hb. rewrite trim_blank by done.
      apply bool_decide_eq_false_2. cbn [length]. lia.
  - intros Hv. apply bool_decide_eq_true in Hv.
    destruct (trim value); [cbn [length] in Hv; lia|done].
  - reflexivity.
Qed.

Lemma url_input_verdict_witness :
  hasValue (lit " ftp://github.com/a/b") = true
  ∧ isValid (lit " ftp://github.com/a/b") = Some false.
Proof.
  split; [reflexivity|].
  exact (proj1 (proj2 (proj2 (url_input_verdict (lit " ftp://github.com/a/b"))))
           eq_refl).
Defined.

(** ** The page: every effect of a submission *)

Section SubmissionEvents.

Local Arguments isValidGitHubUrl : simpl never.
Local Arguments trim : simpl never.
Local Arguments selectedLabel : simpl never.
Local Arguments lit : simpl never.
Local Arguments addRecentJob : simpl never.

Variable b : Backend.

Lemma submissionCalls_kinds s :
  Forall (λ e, isSubmissionCall e = true) (submissionCalls b s).
Proof.
  unfold submissionCalls. case_bool_decide; [by repeat constructor|].
  constructor; [done|]. by destruct (createZipFromFiles b _ _); repeat constructor.
Qed.

(** The [try] block, call by call. *)
Lemma tryBlock_calls s s1 :
  tryBlock b s s1 =
    match submissionOutcome b s with
    | Resolved jobId =>
        (routerPush (lit "/results?job_id=" ++ jobId)
           (setRecentJobs
              (addRecentJob (historyCap b) (submittedJob b s jobId)
                 (recentJobs s1))
              (emit (CallAddRecentJob (submittedJob b s jobId))
                 (emit (CallSetFromGitHub
                          (bool_decide (mode (store s) = Github)))
                    (withStore
                       (setFromGitHub
                          (bool_decide (mode (store s) = Github)))
                       (foldl (λ st e, emit e st) s1
                          (submissionCalls b s)))))),
         Resolved tt)
    | Rejected e =>
        (foldl (λ st e, emit e st) s1 (submissionCalls b s), Rejected e)
    end.
Proof.
  unfold submissionOutcome, submissionCalls, tryBlock, submittedJob,
    bind, await, act, ret.
  destruct (mode (store s));
    [rewrite !(bool_decide_eq_false_2 (Files = Github)) by done
    |rewrite !(bool_decide_eq_true_2 (Github = Github)) by done]; cbn.
  - destruct (createZipFromFiles b _ _) as [zip|e]; [|done].
    by destruct (startJob b zip _ _).
  - by destruct (startJobFromGitHub b _ _ _).
Qed.

Lemma emits_fields s calls :
  openaiKey (foldl (λ st e, emit e st) s calls) = openaiKey s
  ∧ model (foldl (λ st e, emit e st) s calls) = model s
  ∧ isAuthorized (foldl (λ st e, emit e st) s calls) = isAuthorized s
  ∧ isAuthLoading (foldl (λ st e, emit e st) s calls) = isAuthLoading s
  ∧ isSubmitting (foldl (λ st e, emit e st) s calls) = isSubmitting s.
Proof.
  revert s. induction calls as [|e calls IH]; intros s; cbn; [done|].
  by destruct (IH (emit e s)) as (-> & -> & -> & -> & ->).
Qed.

(** All the effects of a submission that passes the guards: the busy
    flag, the reset of the error, the calls and what follows them. *)
Lemma handleSubmit_events s :
  passesGuards s = true ->
  newEvents b s =
    [CallSetIsSubmitting true; CallSetSubmitError None]
      ++ submissionCalls b s ++ closingEvents b s.
Proof.
  intros Hg. unfold newEvents, closingEvents.
  rewrite handleSubmit_guarded by done. rewrite tryBlock_calls.
  destruct (emits_store (setSubmitError None (setIsSubmitting true s))
              (submissionCalls b s)) as (_ & Hjobs & _ & _ & Htrace).
  destruct (submissionOutcome b s) as [jobId|e];
    cbn [setIsSubmitting setSubmitError setRecentJobs routerPush withStore
         emit store recentJobs route submitError isSubmitting trace];
    rewrite ?Hjobs, Htrace;
    cbn [setIsSubmitting setSubmitError emit recentJobs trace];
    rewrite <- !app_assoc; by rewrite drop_app_length.
Qed.

(** What no submission touches: the key, the model and the
    authorization. *)
Lemma handleSubmit_settings s :
  openaiKey (handleSubmit b s) = openaiKey s
  ∧ model (handleSubmit b s) = model s
  ∧ isAuthorized (handleSubmit b s) = isAuthorized s
  ∧ isAuthLoading (handleSubmit b s) = isAuthLoading s.
Proof.
  destruct (passesGuards s) eqn:Hg.
  - rewrite handleSubmit_guarded by done. rewrite tryBlock_calls.
    destruct (emits_fields (setSubmitError None (setIsSubmitting true s))
                (submissionCalls b s)) as (Hk & Hm & Ha & Hl & _).
    destruct (submissionOutcome b s) as [jobId|e];
      cbn [setIsSubmitting setSubmitError setRecentJobs routerPush withStore
           emit openaiKey model isAuthorized isAuthLoading];
      by rewrite Hk, Hm, Ha, Hl.
  - by destruct (handleSubmit_unguarded b s Hg) as [-> | ->].
Qed.

(** The button and the handler agree: an enabled button means the
    guards pass; a button disabled while the page is idle means they
    do not. *)
Lemma canSubmit_guards s :
  (canSubmit s = true -> passesGuards s = true)
  ∧ (canSubmit s = false -> isSubmitting s = false ->
     isAuthLoading s = false -> passesGuards s = false).
Proof.
  unfold canSubmit, passesGuards.
  destruct (isSubmitting s), (isAuthLoading s), (isAuthorized s);
    cbn [orb negb andb]; split; try done; tauto.
Qed.

End SubmissionEvents.

(** ** The page: guards, busy flag and requests *)

(** A submission that is not allowed does nothing.  Unauthorized, the
    handler only shows the request to authorize, whatever the draft;
    authorized in files mode without a file, it returns at once; and
    whenever the button is disabled on an idle page, a call of the
    handler makes no call to the packager or the backend and leaves
    the draft, the history and the route as they are. *)
Theorem blocked_submission_is_inert (b : Backend) (s : PageState) :
  (isAuthorized s = false ->
   handleSubmit b s = setSubmitError (Some authorizeMessage) s)
  ∧ (isAuthorized s = true -> mode (store s) = Files ->
     fileCount (store s) = O -> handleSubmit b s = s)
  ∧ (canSubmit s = false -> isSubmitting s = false ->
     isAuthLoading s = false ->
     store (handleSubmit b s) = store s
     ∧ recentJobs (handleSubmit b s) = recentJobs s
     ∧ route (handleSubmit b s) = route s
     ∧ Forall (λ e, isSubmissionCall e = false) (newEvents b s)).
Proof.
  split_and!.
  - intros Hauth. unfold handleSubmit. by rewrite Hauth.
  - intros Hauth Hmode Hcount.
    assert (passesGuards s = false) as Hg.
    { unfold passesGuards. rewrite Hauth, Hmode.
      rewrite bool_decide_eq_true_2 by done.
      rewrite (bool_decide_eq_false_2 (0 < _)%nat) by lia.
      by rewrite andb_false_r. }
    destruct (handleSubmit_unguarded b s Hg) as [Heq|Heq]; [done|].
    unfold handleSubmit in Heq |- *. rewrite Hauth in Heq |- *.
    cbn [negb] in Heq |- *. rewrite Hmode, Hcount.
    rewrite !bool_decide_eq_true_2 by done. by rewrite orb_true_r.
  - intros Hcan Hbusy Hload.
    pose proof (proj2 (canSubmit_guards s) Hcan Hbusy Hload) as Hg.
    unfold newEvents.
    destruct (handleSubmit_unguarded b s Hg) as [-> | ->].
    + rewrite drop_all. by split_and!.
    + cbn [setSubmitError emit store recentJobs route trace].
      rewrite drop_app_length. split_and!; [done..|by repeat constructor].
Qed.

Lemma blocked_submission_is_inert_witness :
  handleSubmit confirmingBackend (pageWith initialUpload)
  = pageWith initialUpload.
Proof.
  exact (proj1 (proj2 (blocked_submission_is_inert confirmingBackend
           (pageWith initialUpload))) eq_refl eq_refl eq_refl).
Defined.

(** A submission the button allows raises the busy flag first, clears
    the previous error next, makes at least one call, and releases the
    busy flag last, whether the backend confirms or refuses. *)
Theorem busy_flag_brackets_submission (b : Backend) (s : PageState) :
  canSubmit s = true ->
  isSubmitting (handleSubmit b s) = false
  ∧ newEvents b s !! 0%nat = Some (CallSetIsSubmitting true)
  ∧ newEvents b s !! 1%nat = Some (CallSetSubmitError None)
  ∧ last (newEvents b s) = Some (CallSetIsSubmitting false)
  ∧ Exists (λ e, isSubmissionCall e = true) (newEvents b s).
Proof.
  intros Hcan. pose proof (proj1 (canSubmit_guards s) Hcan) as Hg.
  rewrite handleSubmit_events by done. split_and!.
  - by rewrite handleSubmit_guarded by done.
  - done.
  - done.
  - rewrite !app_assoc. unfold closingEvents.
    destruct (submissionOutcome b s); by rewrite last_app.
  - apply Exists_app. right. apply Exists_app. left.
    unfold submissionCalls. case_bool_decide; by apply Exists_cons_hd.
Qed.

Lemma busy_flag_brackets_submission_witness :
  canSubmit githubPage = true
  ∧ last (newEvents refusingBackend githubPage)
    = Some (CallSetIsSubmitting false).
Proof.
  split; [reflexivity|].
  exact (proj1 (proj2 (proj2 (proj2 (busy_flag_brackets_submission
           refusingBackend githubPage eq_refl))))).
Defined.

(** The effects of any call of the handler: none, the request to
    authorize, or those of a submission past the guards. *)
Lemma newEvents_cases (b : Backend) (s : PageState) :
  (passesGuards s = false
   ∧ (newEvents b s = []
      ∨ newEvents b s = [CallSetSubmitError (Some authorizeMessage)]))
  ∨ (passesGuards s = true
     ∧ newEvents b s =
         [CallSetIsSubmitting true; CallSetSubmitError None]
           ++ submissionCalls b s ++ closingEvents b s).
Proof.
  destruct (passesGuards s) eqn:Hg.
  - right. split; [done|]. by apply handleSubmit_events.
  - left. split; [done|]. unfold newEvents.
    destruct (handleSubmit_unguarded b s Hg) as [-> | ->].
    + left. apply drop_all.
    + right. cbn [setSubmitError emit trace]. apply drop_app_length.
Qed.

Lemma closingEvents_kinds (b : Backend) (s : PageState) :
  Forall (λ e, isSubmissionCall e = false) (closingEvents b s).
Proof.
  unfold closingEvents. by destruct (submissionOutcome b s); repeat constructor.
Qed.

(** A call of the handler is in the new effects only as one of the
    awaited calls. *)
Lemma submission_call_origin (b : Backend) (s : PageState) (e : Event) :
  isSubmissionCall e = true -> In e (newEvents b s) ->
  passesGuards s = true ∧ In e (submissionCalls b s).
Proof.
  intros He Hin.
  destruct (newEvents_cases b s) as [[_ [Hev|Hev]]|[Hg Hev]];
    rewrite Hev in Hin.
  - destruct Hin.
  - destruct Hin as [<-|[]]. done.
  - split; [done|].
    apply in_app_or in Hin as [Hin|Hin].
    { destruct Hin as [<-|[<-|[]]]; done. }
    apply in_app_or in Hin as [Hin|Hin]; [done|].
    pose proof (closingEvents_kinds b s) as Hclose.
    rewrite Forall_forall in Hclose.
    apply list_elem_of_In, Hclose in Hin. congruence.
Qed.

(** Where an awaited call comes from: in GitHub mode it is the call of
    the repository endpoint with the trimmed, accepted URL; in files
    mode it is the call of the packager on the non-empty selection or
    the upload of the archive made of it. *)
Lemma submission_call_by_mode (b : Backend) (s : PageState) (e : Event) :
  isSubmissionCall e = true -> In e (newEvents b s) ->
  (mode (store s) = Github
   ∧ isValidGitHubUrl (githubUrl (store s)) = true
   ∧ e = CallStartJobFromGitHub (trim (githubUrl (store s))) (model s)
           (trim (openaiKey s)))
  ∨ (mode (store s) = Files
     ∧ ∃ fs, files (store s) = Some fs ∧ fs ≠ []
         ∧ (e = CallCreateZip fs
                  (default (lit "files") (selectedLabel b (store s)))
            ∨ ∃ zip,
                createZipFromFiles b fs
                  (default (lit "files") (selectedLabel b (store s)))
                = Resolved zip
                ∧ e = CallStartJob zip (model s) (trim (openaiKey s)))).
Proof.
  intros He Hin. apply submission_call_origin in Hin as [Hg Hin]; [|done].
  unfold submissionCalls in Hin. unfold passesGuards in Hg.
  apply andb_true_iff in Hg as [_ Hg].
  destruct (mode (store s)); [right|left].
  - rewrite bool_decide_eq_true_2 in Hg by done.
    rewrite bool_decide_eq_false_2 in Hin by done.
    apply andb_true_iff in Hg as [Hfs Hcount].
    apply bool_decide_eq_true in Hfs, Hcount. unfold fileCount in Hcount.
    destruct (files (store s)) as [fs|]; [|done].
    split; [done|]. exists fs. split_and!; [done| |].
    { intros ->. cbn [length] in Hcount. lia. }
    cbn [default] in Hin. destruct Hin as [<-|Hin]; [by left|right].
    destruct (createZipFromFiles b _ _) as [zip|]; [|done].
    destruct Hin as [<-|[]]. by exists zip.
  - rewrite bool_decide_eq_false_2 in Hg by done.
    rewrite bool_decide_eq_true_2 in Hin by done.
    destruct Hin as [<-|[]]. done.
Qed.

(** One attempt per submission, on one endpoint: a call of the handler
    reaches the network at most once; in files mode never the
    repository endpoint, in GitHub mode neither the packager nor the
    upload endpoint. *)
Theorem single_network_attempt (b : Backend) (s : PageState) :
  (length (filter (λ e, isNetworkCall e = true) (newEvents b s)) ≤ 1)%nat
  ∧ (mode (store s) = Files ->
     ∀ url m k, ¬ In (CallStartJobFromGitHub url m k) (newEvents b s))
  ∧ (mode (store s) = Github ->
     (∀ fs name, ¬ In (CallCreateZip fs name) (newEvents b s))
     ∧ (∀ zip m k, ¬ In (CallStartJob zip m k) (newEvents b s))).
Proof.
  split_and!.
  - destruct (newEvents_cases b s) as [[_ [-> | ->]]|[_ ->]].
    { cbn. lia. }
    { rewrite filter_none by (by repeat constructor). cbn. lia. }
    rewrite !filter_app.
    rewrite (filter_none _ [_; _]) by (by repeat constructor).
    rewrite (filter_none _ (closingEvents b s)).
    + rewrite app_nil_r. cbn [app]. unfold submissionCalls.
      case_bool_decide; [etrans; [apply length_filter|done]|].
      rewrite filter_cons_False by done.
      etrans; [apply length_filter|].
      destruct (createZipFromFiles b _ _); cbn; lia.
    + eapply Forall_impl; [apply closingEvents_kinds|].
      intros [] He; cbn in *; congruence.
  - intros Hmode url m k Hin.
    apply submission_call_by_mode in Hin; [|done].
    destruct Hin as [(Hm & _)|(_ & fs & _ & _ & [He|(zip & _ & He)])];
      congruence.
  - intros Hmode. split.
    + intros fs name Hin.
      apply submission_call_by_mode in Hin; [|done].
      destruct Hin as [(_ & _ & He)|(Hm & _)]; congruence.
    + intros zip m k Hin.
      apply submission_call_by_mode in Hin; [|done].
      destruct Hin as [(_ & _ & He)|(Hm & _)]; congruence.
Qed.

Lemma single_network_attempt_witness :
  mode (store filesPage) = Files
  ∧ ¬ In (CallStartJobFromGitHub (lit "https://github.com/acme/vault")
            (lit "claude-opus-4-5") (lit "sk-test"))
        (newEvents confirmingBackend filesPage).
Proof.
  split; [reflexivity|].
  exact (proj1 (proj2 (single_network_attempt confirmingBackend filesPage))
           eq_refl (lit "https://github.com/acme/vault")
           (lit "claude-opus-4-5") (lit "sk-test")).
Defined.

(** What reaches the repository endpoint: the trimmed URL of the draft,
    which has no whitespace around it, passes the validator and is a
    repository reference of the grammar; with it go the selected model
    and the trimmed key. *)
Theorem repository_request_is_validated (b : Backend) (s : PageState)
    (url m k : jsstring) :
  In (CallStartJobFromGitHub url m k) (newEvents b s) ->
  url = trim (githubUrl (store s))
  ∧ trim url = url
  ∧ isValidGitHubUrl url = true
  ∧ repositoryReference url
  ∧ m = model s
  ∧ k = trim (openaiKey s).
Proof.
  intros Hin. apply submission_call_by_mode in Hin; [|done].
  destruct Hin as [(Hmode & Hvalid & [= -> -> ->])
                  |(_ & fs & _ & _ & [He|(zip & _ & He)])];
    [|done|done].
  assert (isValidGitHubUrl (trim (githubUrl (store s))) = true) as Hvalid'.
  { unfold isValidGitHubUrl in *. by rewrite trim_idempotent. }
  split_and!; [done|apply trim_idempotent|done| |done|done].
  by apply test_pattern.
Qed.

Lemma repository_request_is_validated_witness :
  trim (lit "https://github.com/acme/vault") = lit "https://github.com/acme/vault"
  ∧ isValidGitHubUrl (lit "https://github.com/acme/vault") = true.
Proof.
  assert (In (CallStartJobFromGitHub (lit "https://github.com/acme/vault")
                (lit "claude-opus-4-5") (lit "sk-test"))
            (newEvents confirmingBackend githubPage)) as Hin.
  { apply list_elem_of_In. vm_compute. do 2 apply list_elem_of_further.
    apply list_elem_of_here. }
  split.
  - exact (proj1 (proj2 (repository_request_is_validated _ _ _ _ _ Hin))).
  - exact (proj1 (proj2 (proj2 (repository_request_is_validated _ _ _ _ _ Hin)))).
Defined.

(** What reaches the packager and the upload endpoint: the packager
    gets the files of the draft, never an empty list; the upload
    endpoint gets the archive the packager made of them, with the
    selected model and the trimmed key, and is not called when the
    packager fails. *)
Theorem upload_request_is_packaged (b : Backend) (s : PageState) :
  (∀ fs name,
     In (CallCreateZip fs name) (newEvents b s) ->
     files (store s) = Some fs ∧ fs ≠ []
     ∧ name = default (lit "files") (selectedLabel b (store s)))
  ∧ (∀ zip m k,
       In (CallStartJob zip m k) (newEvents b s) ->
       ∃ fs, files (store s) = Some fs
             ∧ createZipFromFiles b fs
                 (default (lit "files") (selectedLabel b (store s)))
               = Resolved zip
             ∧ m = model s ∧ k = trim (openaiKey s)).
Proof.
  split.
  - intros fs name Hin. apply submission_call_by_mode in Hin; [|done].
    destruct Hin as [(_ & _ & He)
                    |(_ & fs' & Hfs & Hne & [[= -> ->]|(zip & _ & He)])];
      done.
  - intros zip m k Hin. apply submission_call_by_mode in Hin; [|done].
    destruct Hin as [(_ & _ & He)
                    |(_ & fs' & Hfs & Hne & [He|(zip' & Hzip & [= -> -> ->])])];
      [done|done|].
    by exists fs'.
Qed.

Lemma upload_request_is_packaged_witness :
  files (store filesPage) = Some [mkFile (lit "Token.sol") [1; 2; 3]].
Proof.
  assert (In (CallCreateZip [mkFile (lit "Token.sol") [1; 2; 3]] (lit "Token"))
            (newEvents confirmingBackend filesPage)) as Hin.
  { apply list_elem_of_In. vm_compute. do 2 apply list_elem_of_further.
    apply list_elem_of_here. }
  exact (proj1 (proj1 (upload_request_is_packaged confirmingBackend filesPage)
                  _ _ Hin)).
Defined.

(** A confirmed submission leaves no error on the page. *)
Lemma handleSubmit_resolved_error (b : Backend) (s : PageState)
    (jobId : jsstring) :
  passesGuards s = true ->
  submissionOutcome b s = Resolved jobId ->
  submitError (handleSubmit b s) = None.
Proof.
  intros Hg Hout. rewrite handleSubmit_guarded by done.
  rewrite tryBlock_calls, Hout.
  cbn [setIsSubmitting setSubmitError setRecentJobs routerPush withStore
       emit submitError].
  destruct (emits_store (setSubmitError None (setIsSubmitting true s))
              (submissionCalls b s)) as (_ & _ & _ & -> & _).
  done.
Qed.

(** Retrying after a failure.  When a submission the button allowed
    fails, the button is enabled again and a second submission has
    exactly the effects it would have had in place of the first; if the
    backend then confirms, the error message is gone and the job is
    added to the history as it stood before the failure. *)
Theorem retry_after_failure (b b' : Backend) (s : PageState) (e : Thrown) :
  canSubmit s = true ->
  submissionOutcome b s = Rejected e ->
  canSubmit (handleSubmit b s) = true
  ∧ newEvents b' (handleSubmit b s) = newEvents b' s
  ∧ (∀ jobId,
       submissionOutcome b' s = Resolved jobId ->
       submitError (handleSubmit b' (handleSubmit b s)) = None
       ∧ recentJobs (handleSubmit b' (handleSubmit b s))
         = addRecentJob (historyCap b') (submittedJob b' s jobId)
             (recentJobs s)
       ∧ route (handleSubmit b' (handleSubmit b s))
         = Some (lit "/results?job_id=" ++ jobId)).
Proof.
  intros Hcan Hout. pose proof (proj1 (canSubmit_guards s) Hcan) as Hg.
  destruct (handleSubmit_rejected b s e Hg Hout)
    as (_ & _ & Hstore & Hjobs & _ & _ & Hbusy & _).
  destruct (handleSubmit_settings b s) as (Hkey & Hmodel & Hauth & Hload).
  assert (canSubmit (handleSubmit b s) = true) as Hcan'.
  { unfold canSubmit in *. rewrite Hbusy, Hload, Hauth, Hstore.
    destruct (isSubmitting s); [done|]. done. }
  assert (∀ b0, submissionOutcome b0 (handleSubmit b s)
                = submissionOutcome b0 s) as Hsame.
  { intros b0. unfold submissionOutcome. by rewrite Hstore, Hkey, Hmodel. }
  split_and!.
  - done.
  - pose proof (proj1 (canSubmit_guards _) Hcan') as Hg'.
    rewrite !handleSubmit_events by done. do 2 f_equal.
    + unfold submissionCalls. by rewrite Hstore, Hkey, Hmodel.
    + unfold closingEvents, submittedJob.
      by rewrite Hsame, Hstore, Hjobs.
  - intros jobId Hout'.
    pose proof (proj1 (canSubmit_guards _) Hcan') as Hg'.
    rewrite <- Hsame in Hout'.
    destruct (handleSubmit_resolved b' _ jobId Hg' Hout')
      as (_ & _ & _ & _ & Hjobs' & Hroute & _).
    split_and!.
    + by eapply handleSubmit_resolved_error.
    + rewrite Hjobs', Hjobs. unfold submittedJob. by rewrite Hstore.
    + done.
Qed.

Lemma retry_after_failure_witness :
  canSubmit (handleSubmit refusingBackend filesPage) = true
  ∧ submitError
      (handleSubmit confirmingBackend (handleSubmit refusingBackend filesPage))
    = None.
Proof.
  pose proof (retry_after_failure refusingBackend confirmingBackend filesPage
                (ErrorObject (lit "model not available")) eq_refl eq_refl)
    as (Hcan & _ & Hretry).
  split; [exact Hcan|].
  exact (proj1 (Hretry (lit "job-files") eq_refl)).
Defined.

(** Eligibility follows the draft.  On an idle, authorized page in
    files mode, selecting files enables the button exactly when the
    selection is not empty, and keeps the URL of the other tab;
    clearing the upload disables it again.  In GitHub mode, clearing
    the URL input disables the button. *)
Theorem eligibility_follows_draft (b : Backend) (s : PageState)
    (selected : list File) :
  isAuthorized s = true -> isAuthLoading s = false ->
  isSubmitting s = false ->
  (mode (store s) = Files ->
   canSubmit (handleFilesSelected b selected s) = bool_decide (selected ≠ [])
   ∧ githubUrl (store (handleFilesSelected b selected s))
     = githubUrl (store s)
   ∧ canSubmit (withStore clearUpload (handleFilesSelected b selected s))
     = false)
  ∧ (mode (store s) = Github -> canSubmit (handleClear s) = false).
Proof.
  intros Hauth Hload Hbusy. unfold canSubmit, handleFilesSelected, handleClear.
  cbn [withStore isSubmitting isAuthLoading isAuthorized store setUpload
       setGitHubUrl clearUpload mode files githubUrl fileCount].
  rewrite Hauth, Hload, Hbusy. cbn [orb negb]. split.
  - intros ->. rewrite !bool_decide_eq_true_2 by done. split_and!.
    + destruct selected; cbn [length andb].
      * rewrite bool_decide_eq_false_2 by lia.
        by rewrite bool_decide_eq_false_2 by (by intros H; apply H).
      * rewrite bool_decide_eq_true_2 by lia.
        by rewrite bool_decide_eq_true_2.
    + done.
    + by rewrite (bool_decide_eq_false_2 (None ≠ None)) by (by intros H; apply H).
  - intros ->. by rewrite bool_decide_eq_false_2.
Qed.

Lemma eligibility_follows_draft_witness :
  canSubmit
    (handleFilesSelected confirmingBackend [mkFile (lit "Token.sol") []]
       (pageWith initialUpload)) = true.
Proof.
  exact (proj1 (proj1 (eligibility_follows_draft confirmingBackend
           (pageWith initialUpload) [mkFile (lit "Token.sol") []]
           eq_refl eq_refl eq_refl) eq_refl)).
Defined.

(** ** The label of a repository *)

Section Label.

Local Open Scope nat_scope.

Lemma ends_dotgit i t y :
  In y (ends (RSeq (rlit ".git") REol) (i, t))
  ↔ t = lit ".git" ∧ y = (i + 4, []).
Proof.
  change (RSeq (rlit ".git") REol) with (rseq ([rlit ".git"] ++ [REol])).
  rewrite ends_rseq_eol. cbn [rseq]. destruct y as [j r].
  pose proof (ends_spec (rlit ".git") eq_refl i t j r) as Hspec.
  rewrite Hspec. cbn [snd]. split.
  - intros [(w & -> & -> & Hw) ->]. apply Lang_rlit in Hw as ->.
    by rewrite app_nil_r.
  - intros [-> [= -> ->]]. split; [|done]. exists (lit ".git").
    split_and!; [done..|]. by apply Lang_rlit.
Qed.

Lemma drop_is_suffix (s suffix : jsstring) k :
  drop k s = suffix -> suffix ≠ [] -> s = take k s ++ suffix.
Proof. intros <- _. by rewrite take_drop. Qed.

Lemma exec_dotgit_Some s x y :
  exec (RSeq (rlit ".git") REol) s = Some (x, y) ->
  s = take (fst x) s ++ lit ".git".
Proof.
  intros Hm. unfold exec in Hm.
  apply firstMatch_Some in Hm as (k & -> & Hin).
  apply ends_dotgit in Hin as [Hdrop _]. cbn [fst].
  by apply drop_is_suffix.
Qed.

Lemma exec_dotgit_found name :
  exec (RSeq (rlit ".git") REol) (name ++ lit ".git") ≠ None.
Proof.
  intros Hm. unfold exec in Hm. rewrite firstMatch_None in Hm.
  specialize (Hm (length name)).
  rewrite length_app in Hm. specialize (Hm ltac:(lia)).
  cbn [Nat.add] in Hm. rewrite drop_app_length in Hm.
  assert (In (length name + 4, [])
            (ends (RSeq (rlit ".git") REol) (length name, lit ".git")))
    as Hin by by apply ends_dotgit.
  destruct (eq_ind _ (λ l : list mstate, In (length name + 4, []) l)
              Hin _ Hm).
Qed.

Lemma stripDotGit_tail name :
  ∃ tail, name = stripDotGit name ++ tail ∧ (tail = [] ∨ tail = lit ".git").
Proof.
  unfold stripDotGit.
  destruct (exec _ name) as [[x y]|] eqn:Hm.
  - exists (lit ".git"). split; [by eapply exec_dotgit_Some|by right].
  - exists []. split; [by rewrite app_nil_r|by left].
Qed.

(** [stripDotGit] removes one final ".git" and nothing else: a name
    that ends in ".git" loses exactly these four units, any other name
    is kept as it is. *)
Theorem stripDotGit_spec (name : jsstring) :
  stripDotGit (name ++ lit ".git") = name
  ∧ ((∀ w, name ≠ w ++ lit ".git") -> stripDotGit name = name)
  ∧ (∃ tail, name = stripDotGit name ++ tail
             ∧ (tail = [] ∨ tail = lit ".git")).
Proof.
  split_and!.
  - unfold stripDotGit.
    destruct (exec _ (name ++ lit ".git")) as [[x y]|] eqn:Hm.
    + pose proof (exec_dotgit_Some _ _ _ Hm) as Heq.
      apply app_inv_tail in Heq. by symmetry.
    + by destruct (exec_dotgit_found name).
  - intros Hno. unfold stripDotGit.
    destruct (exec _ name) as [[x y]|] eqn:Hm; [|done].
    by destruct (Hno _ (exec_dotgit_Some _ _ _ Hm)).
  - apply stripDotGit_tail.
Qed.

Lemma stripDotGit_spec_witness :
  (∀ w, lit "vault" ≠ w ++ lit ".git")
  ∧ stripDotGit (lit "vault") = lit "vault".
Proof.
  assert (∀ w, lit "vault" ≠ w ++ lit ".git") as Hno.
  { intros w Heq. apply (f_equal (@rev N)) in Heq.
    rewrite rev_app_distr in Heq. cbv in Heq. discriminate Heq. }
  split; [exact Hno|].
  exact (proj1 (proj2 (stripDotGit_spec (lit "vault"))) Hno).
Defined.

Lemma stripDotGit_no_slash name : slash ∉ name -> slash ∉ stripDotGit name.
Proof.
  intros Hno Hin.
  destruct (stripDotGit_tail name) as (tail & Heq & _).
  apply Hno. rewrite Heq. apply elem_of_app. by left.
Qed.

(** The group of the first match is itself a match of the group. *)
Lemma firstGroup_Some pre grp fuel i s g :
  firstGroup pre grp fuel i s = Some g ->
  ∃ x y z, In y (ends pre x) ∧ In z (ends grp y)
           ∧ g = take (fst z - fst y) (snd y).
Proof.
  revert i. induction fuel as [|f IH]; intros i; cbn [firstGroup].
  - destruct (flat_map _ _) as [|[y z] l] eqn:Hfm; [done|].
    intros [= <-].
    assert (In (y, z) (flat_map (λ y, map (λ z, (y, z)) (ends grp y))
                         (ends pre (i, drop i s)))) as Hin
      by (rewrite Hfm; by left).
    apply in_flat_map in Hin as (y' & Hy & Hz).
    apply in_map_iff in Hz as (z' & [= -> ->] & Hz). eauto 6.
  - destruct (flat_map _ _) as [|[y z] l] eqn:Hfm; [by apply IH|].
    intros [= <-].
    assert (In (y, z) (flat_map (λ y, map (λ z, (y, z)) (ends grp y))
                         (ends pre (i, drop i s)))) as Hin
      by (rewrite Hfm; by left).
    apply in_flat_map in Hin as (y' & Hy & Hz).
    apply in_map_iff in Hz as (z' & [= -> ->] & Hz). eauto 6.
Qed.

(** In GitHub mode with a URL that is not blank there is always a
    label, it never holds a slash, and what the files tab holds plays
    no part in it. *)
Theorem github_label_has_no_slash (b : Backend) (u : UploadState) :
  mode u = Github -> trim (githubUrl u) ≠ [] ->
  (∃ name, selectedLabel b u = Some name ∧ slash ∉ name)
  ∧ (∀ fs pn, selectedLabel b (setUpload fs pn u) = selectedLabel b u).
Proof.
  intros Hmode Hurl. unfold selectedLabel.
  cbn [setUpload mode githubUrl]. rewrite Hmode.
  rewrite !bool_decide_eq_true_2 by done. cbn [andb]. split; [|done].
  destruct (firstGroup _ _ _ _ _) as [g|] eqn:Hg.
  - exists (stripDotGit g). split; [done|]. apply stripDotGit_no_slash.
    apply firstGroup_Some in Hg as (x & [j r] & [k t] & _ & Hz & ->).
    apply (ends_spec labelGroup eq_refl) in Hz as (w & -> & -> & Hw).
    apply Lang_rsegment in Hw as [_ Hw]. cbn [fst snd].
    replace (j + length w - j) with (length w) by lia.
    by rewrite take_app_length.
  - exists (lit "github-repo"). split; [done|].
    refine (bool_decide_unpack _ _). vm_compute. exact I.
Qed.

Lemma github_label_has_no_slash_witness :
  ∃ name,
    selectedLabel confirmingBackend (githubDraft "git@github.com:acme/vault")
    = Some name ∧ slash ∉ name.
Proof.
  assert (trim (githubUrl (githubDraft "git@github.com:acme/vault")) ≠ [])
    as Hurl by (vm_compute; discriminate).
  exact (proj1 (github_label_has_no_slash confirmingBackend
                  (githubDraft "git@github.com:acme/vault") eq_refl Hurl)).
Defined.

End Label.

(** ** The label of a repository: the first match and its group *)

Section LabelMatch.

Local Open Scope nat_scope.

Lemma drop_cons_next (s : jsstring) i c t :
  drop i s = c :: t -> drop (S i) s = t.
Proof.
  revert s. induction i as [|i IH]; intros [|d s]; cbn [drop]; try done.
  - by intros [= _ ->].
  - apply IH.
Qed.

Lemma labelPrefix_needs_g i c t :
  c ≠ N_of_ascii "g" -> ends labelPrefix (i, c :: t) = [].
Proof.
  intros Hc. unfold labelPrefix. rewrite ends_rseq_cons.
  change (rlit "github.com/")
    with (rseq (RChar (N_of_ascii "g") :: map RChar (lit "ithub.com/"))).
  rewrite ends_rseq_cons. cbn [ends snd].
  by rewrite bool_decide_eq_false_2.
Qed.

Lemma firstGroup_found pre grp fuel i s y z l :
  flat_map (λ y, map (λ z, (y, z)) (ends grp y)) (ends pre (i, drop i s))
  = (y, z) :: l ->
  firstGroup pre grp fuel i s = Some (take (fst z - fst y) (snd y)).
Proof. intros H. destruct fuel; cbn [firstGroup]; by rewrite H. Qed.

(** Start indices before the first "g" are passed over. *)
Lemma firstGroup_skip before fuel i s rest :
  Forall (λ c, c ≠ N_of_ascii "g") before ->
  drop i s = before ++ rest ->
  firstGroup labelPrefix labelGroup (length before + fuel) i s
  = firstGroup labelPrefix labelGroup fuel (i + length before) s.
Proof.
  intros Hno. revert i.
  induction Hno as [|c before Hc _ IH]; intros i Hdrop.
  - cbn [length Nat.add]. by rewrite Nat.add_0_r.
  - cbn [length Nat.add firstGroup]. rewrite Hdrop.
    cbn [app]. rewrite labelPrefix_needs_g by done. cbn [flat_map].
    rewrite IH by (by eapply drop_cons_next).
    f_equal. lia.
Qed.

Lemma ends_chars_exact l i t :
  ends (rseq (map RChar l)) (i, l ++ t) = [(i + length l, t)].
Proof.
  revert i. induction l as [|c l IH]; intros i.
  - cbn. by rewrite Nat.add_0_r.
  - change (map RChar (c :: l)) with (RChar c :: map RChar l).
    rewrite ends_rseq_cons. cbn [ends snd fst app].
    rewrite bool_decide_eq_true_2 by done. cbn [flat_map].
    rewrite IH, app_nil_r. cbn [length]. do 2 f_equal. lia.
Qed.

Lemma ends_not_slash_stop i t :
  stopsRun t -> ends (RNotChar slash) (i, t) = [].
Proof.
  intros [->|(r & ->)]; cbn [ends snd]; [done|].
  by rewrite bool_decide_eq_true_2.
Qed.

(** A greedy run of units that are not slashes: every place it can
    stop, the end of the run first. *)
Lemma starIter_run w fuel i t :
  slash ∉ w -> stopsRun t -> length (w ++ t) ≤ fuel ->
  starIter (ends (RNotChar slash)) fuel (i, w ++ t) = runEnds i w t.
Proof.
  revert fuel i. induction w as [|d w IH]; intros fuel i Hw Ht Hlen.
  - cbn [app runEnds]. destruct fuel as [|f]; [done|].
    cbn [starIter]. rewrite ends_not_slash_stop by done. done.
  - apply not_elem_of_cons in Hw as [Hd Hw].
    destruct fuel as [|f]; [cbn [app length] in Hlen; lia|].
    cbn [starIter app runEnds ends snd fst].
    rewrite bool_decide_eq_false_2 by done.
    rewrite filter_cons_True.
    + rewrite filter_nil. cbn [flat_map]. rewrite app_nil_r.
      rewrite IH; [done..|]. cbn [app length] in Hlen. lia.
    + unfold progress. apply bool_decide_eq_true. cbn [snd length]. lia.
Qed.

Lemma ends_segment_run i d w t :
  d ≠ slash -> slash ∉ w -> stopsRun t ->
  ends rsegment (i, d :: w ++ t) = runEnds (S i) w t.
Proof.
  intros Hd Hw Ht. unfold rsegment. cbn [ends snd fst].
  rewrite bool_decide_eq_false_2 by done. cbn [flat_map snd].
  rewrite app_nil_r. by apply starIter_run.
Qed.

Lemma runEnds_head i w t :
  ∃ others,
    runEnds i w t = (i + length w, t) :: others
    ∧ Forall (λ y, ∃ d r, snd y = d :: r ∧ d ∈ w) others.
Proof.
  revert i. induction w as [|d w IH]; intros i.
  - exists []. cbn. by rewrite Nat.add_0_r.
  - destruct (IH (S i)) as (others & Heq & Hall).
    exists (others ++ [(i, d :: w ++ t)]). cbn [runEnds]. rewrite Heq.
    split.
    + cbn [app length]. do 2 f_equal. lia.
    + apply Forall_app. split.
      * eapply Forall_impl; [exact Hall|].
        intros y (d' & r & Hy & Hd'). exists d', r. split; [done|by right].
      * constructor; [|done]. exists d, (w ++ t). split; [done|by left].
Qed.

Lemma no_slash_after (w : jsstring) others :
  slash ∉ w ->
  Forall (λ y : mstate, ∃ d r, snd y = d :: r ∧ d ∈ w) others ->
  flat_map (ends (RChar slash)) others = [].
Proof.
  intros Hw. induction 1 as [|[j s] others (d & r & Hy & Hd) _ IH]; [done|].
  cbn [flat_map ends snd] in *. subst s.
  rewrite bool_decide_eq_false_2 by (by intros ->). done.
Qed.

(** The part before the group matches in one way only. *)
Lemma ends_labelPrefix_exact i owner t :
  pathSegment owner ->
  ends labelPrefix (i, lit "github.com/" ++ owner ++ slash :: t)
  = [(i + 11 + length owner + 1, t)].
Proof.
  intros [Hne Hno]. unfold labelPrefix. rewrite ends_rseq_cons.
  unfold rlit at 1. rewrite ends_chars_exact. cbn [flat_map].
  rewrite app_nil_r. change (rseq [rsegment; RChar slash])
    with (RSeq rsegment (RChar slash)).
  cbn [ends]. destruct owner as [|d owner]; [done|].
  apply not_elem_of_cons in Hno as [Hd Hno].
  change ((d :: owner) ++ slash :: t) with (d :: owner ++ slash :: t).
  rewrite ends_segment_run; [|done|done|right; by eexists].
  destruct (runEnds_head (S (i + length (lit "github.com/"))) owner (slash :: t))
    as (others & -> & Hall).
  cbn [flat_map ends snd fst]. rewrite bool_decide_eq_true_2 by done.
  rewrite (no_slash_after owner) by done.
  cbn [app length lit]. do 2 f_equal. cbn. lia.
Qed.

(** The group takes the whole run after the owner. *)
Lemma ends_labelGroup_head i run rest :
  pathSegment run -> stopsRun rest ->
  ∃ others, ends labelGroup (i, run ++ rest) = (i + length run, rest) :: others.
Proof.
  intros [Hne Hno] Hrest. unfold labelGroup.
  destruct run as [|d run]; [done|].
  apply not_elem_of_cons in Hno as [Hd Hno].
  change ((d :: run) ++ rest) with (d :: run ++ rest).
  rewrite ends_segment_run by done.
  destruct (runEnds_head (S i) run rest) as (others & -> & _).
  exists others. cbn [length]. do 2 f_equal. lia.
Qed.

(** The group of the first match in a text that holds no "g" before
    "github.com/owner/": the run of units after the owner up to the
    next slash or the end. *)
Lemma firstGroup_repository before owner run rest :
  Forall (λ c, c ≠ N_of_ascii "g") before ->
  pathSegment owner -> pathSegment run -> stopsRun rest ->
  let url := before ++ lit "github.com/" ++ owner ++ slash :: run ++ rest in
  firstGroup labelPrefix labelGroup (length url) O url = Some run.
Proof.
  intros Hbefore Howner Hrun Hrest url.
  replace (length url)
    with (length before
          + length (lit "github.com/" ++ owner ++ slash :: run ++ rest))
    by (unfold url; by rewrite (length_app before)).
  rewrite (firstGroup_skip before _ O url
             (lit "github.com/" ++ owner ++ slash :: run ++ rest))
    by done.
  cbn [Nat.add].
  destruct (ends_labelGroup_head
              (length before + 11 + length owner + 1) run rest Hrun Hrest)
    as (others & Hgroup).
  assert (flat_map (λ y, map (λ z, (y, z)) (ends labelGroup y))
            (ends labelPrefix (length before, drop (length before) url))
          = ((length before + 11 + length owner + 1, run ++ rest),
             (length before + 11 + length owner + 1 + length run, rest))
            :: map (λ z, ((length before + 11 + length owner + 1,
                           run ++ rest), z)) others) as Hfirst.
  { unfold url. rewrite drop_app_length.
    rewrite ends_labelPrefix_exact by done. cbn [flat_map].
    rewrite Hgroup. cbn [map]. by rewrite app_nil_r. }
  rewrite (firstGroup_found _ _ _ _ _ _ _ _ Hfirst). cbn [fst snd].
  replace (length before + 11 + length owner + 1 + length run
           - (length before + 11 + length owner + 1))
    with (length run) by lia.
  by rewrite take_app_length.
Qed.

End LabelMatch.

Lemma selectedLabel_repository (b : Backend) (u : UploadState)
    (before owner run rest : jsstring) :
  mode u = Github ->
  Forall (λ c, c ≠ N_of_ascii "g") before ->
  pathSegment owner -> pathSegment run -> stopsRun rest ->
  githubUrl u = before ++ lit "github.com/" ++ owner ++ [slash] ++ run ++ rest ->
  selectedLabel b u = Some (stripDotGit run).
Proof.
  intros Hmode Hbefore Howner Hrun Hrest Hurl. unfold selectedLabel.
  rewrite Hmode, bool_decide_eq_true_2 by done.
  rewrite bool_decide_eq_true_2.
  - cbn [andb]. rewrite Hurl.
    pose proof (firstGroup_repository before owner run rest
                  Hbefore Howner Hrun Hrest) as Hfirst.
    cbv zeta in Hfirst.
    change ([slash] ++ run ++ rest) with (slash :: run ++ rest).
    by rewrite Hfirst.
  - intros Hblank. apply trim_nil_blank in Hblank. rewrite Hurl in Hblank.
    apply Forall_app in Hblank as [_ Hblank].
    apply Forall_app in Hblank as [Hblank _].
    apply Forall_cons in Hblank as [Hg _]. by vm_compute in Hg.
Qed.

(** The label of a repository.  When the URL of a draft in GitHub mode
    has no "g" before "github.com/owner/", the label is the text after
    the owner up to the next slash or the end of the URL, less one
    final ".git"; the scheme is not looked at.  In particular, for a
    repository reference of the grammar the label is the name of the
    repository, less one final ".git". *)
Theorem repository_label (b : Backend) (u : UploadState) :
  mode u = Github ->
  (∀ before owner run rest,
     Forall (λ c, c ≠ N_of_ascii "g") before ->
     pathSegment owner -> pathSegment run -> stopsRun rest ->
     githubUrl u
     = before ++ lit "github.com/" ++ owner ++ [slash] ++ run ++ rest ->
     selectedLabel b u = Some (stripDotGit run))
  ∧ (∀ scheme owner repo suffix,
       scheme = lit "http" ∨ scheme = lit "https" ->
       pathSegment owner -> pathSegment repo -> treeSuffix suffix ->
       githubUrl u
       = scheme ++ lit "://github.com/" ++ owner ++ [slash] ++ repo ++ suffix ->
       selectedLabel b u = Some (stripDotGit repo)).
Proof.
  intros Hmode. split.
  - intros before owner run rest. by apply selectedLabel_repository.
  - intros scheme owner repo suffix Hscheme Howner Hrepo Hsuffix Hurl.
    apply (selectedLabel_repository b u (scheme ++ lit "://") owner repo suffix);
      try done.
    + destruct Hscheme as [-> | ->]; vm_compute; by repeat constructor.
    + destruct Hsuffix as [->|(ref & _ & [->|(sub & _ & ->)])];
        [by left|right; by eexists|right; by eexists].
    + rewrite Hurl. rewrite <- !app_assoc. done.
Qed.

Lemma repository_label_witness :
  selectedLabel confirmingBackend
    (githubDraft "https://github.com/acme/vault.git/tree/main")
  = Some (lit "vault").
Proof.
  assert (pathSegment (lit "acme")) as Howner.
  { split; [done|]. refine (bool_decide_unpack _ _). vm_compute. exact I. }
  assert (pathSegment (lit "vault.git")) as Hrepo.
  { split; [done|]. refine (bool_decide_unpack _ _). vm_compute. exact I. }
  assert (treeSuffix (lit "/tree/main")) as Hsuffix.
  { right. exists (lit "main"). split; [|by left].
    split; [done|]. refine (bool_decide_unpack _ _). vm_compute. exact I. }
  exact (proj2 (repository_label confirmingBackend
                  (githubDraft "https://github.com/acme/vault.git/tree/main")
                  eq_refl)
           (lit "https") (lit "acme") (lit "vault.git") (lit "/tree/main")
           (or_intror eq_refl) Howner Hrepo Hsuffix eq_refl).
Defined.

(** ** The summary by severity *)

Section Histogram.

Lemma bySeverity_snoc vs v :
  bySeverity (vs ++ [v]) = bumpCount (Vuln.severity v) (bySeverity vs).
Proof. unfold bySeverity. by rewrite fold_left_app. Qed.

(** A name no object inherits is not [__proto__]. *)
Lemma ordinary_not_proto key :
  inheritedText key = None -> key ≠ lit "__proto__".
Proof. intros Hnone ->. by vm_compute in Hnone. Qed.

Lemma bumpCount_ordinary key acc :
  inheritedText key = None -> bumpCount key acc = bumpOwn key acc.
Proof.
  intros Hnone. unfold bumpCount.
  rewrite bool_decide_eq_false_2; [done|by apply ordinary_not_proto].
Qed.

Lemma getCount_bumpOwn_same key acc :
  getCount key (bumpOwn key acc)
  = Some (match getCount key acc with
          | Some value => plusOne value
          | None => firstCount key
          end).
Proof.
  induction acc as [|[k n] acc IH]; cbn [bumpOwn getCount].
  - by rewrite bool_decide_eq_true_2.
  - destruct (decide (k = key)) as [->|Hk].
    + rewrite !bool_decide_eq_true_2 by done. cbn [getCount].
      by rewrite bool_decide_eq_true_2.
    + rewrite !bool_decide_eq_false_2 by done. cbn [getCount].
      by rewrite bool_decide_eq_false_2.
Qed.

Lemma getCount_bumpOwn_other key key' acc :
  key' ≠ key -> getCount key' (bumpOwn key acc) = getCount key' acc.
Proof.
  intros Hne. induction acc as [|[k n] acc IH]; cbn [bumpOwn getCount].
  - by rewrite bool_decide_eq_false_2.
  - destruct (decide (k = key)) as [->|Hk].
    + rewrite bool_decide_eq_true_2 by done. cbn [getCount].
      by rewrite !bool_decide_eq_false_2 by done.
    + rewrite (bool_decide_eq_false_2 (k = key)) by done. cbn [getCount].
      by rewrite IH.
Qed.

Lemma getCount_bump_other key key' acc :
  key' ≠ key -> getCount key' (bumpCount key acc) = getCount key' acc.
Proof.
  intros Hne. unfold bumpCount. case_bool_decide; [done|].
  by apply getCount_bumpOwn_other.
Qed.

Lemma bumpOwn_keys key acc :
  fst <$> bumpOwn key acc
  = if bool_decide (key ∈ fst <$> acc) then fst <$> acc
    else (fst <$> acc) ++ [key].
Proof.
  induction acc as [|[k n] acc IH]; cbn [bumpOwn].
  - rewrite bool_decide_eq_false_2 by apply not_elem_of_nil. done.
  - destruct (decide (k = key)) as [->|Hk].
    + rewrite bool_decide_eq_true_2 by done. rewrite fmap_cons.
      rewrite bool_decide_eq_true_2 by apply list_elem_of_here. done.
    + rewrite bool_decide_eq_false_2 by done. rewrite !fmap_cons, IH.
      cbn [fst]. destruct (decide (key ∈ fst <$> acc)) as [Hin|Hin].
      * rewrite !bool_decide_eq_true_2;
          [done|by apply list_elem_of_further|done].
      * rewrite !bool_decide_eq_false_2; [done| |done].
        intros Hin'. apply elem_of_cons in Hin' as [->|Hin']; done.
Qed.

Lemma bumpCount_keys key acc :
  fst <$> bumpCount key acc
  = if bool_decide (key = lit "__proto__") then fst <$> acc
    else if bool_decide (key ∈ fst <$> acc) then fst <$> acc
    else (fst <$> acc) ++ [key].
Proof.
  unfold bumpCount. case_bool_decide; [done|]. apply bumpOwn_keys.
Qed.

Lemma bySeverity_NoDup vs : NoDup (fst <$> bySeverity vs).
Proof.
  induction vs as [|v vs IH] using rev_ind; [constructor|].
  rewrite bySeverity_snoc, bumpCount_keys.
  case_bool_decide as Hproto; [done|].
  case_bool_decide as Hin; [done|].
  apply NoDup_app. split_and!; [done| |apply NoDup_singleton].
  intros k Hk Hk'. apply list_elem_of_singleton in Hk'. by subst.
Qed.

Lemma withSeverity_snoc sev vs v :
  withSeverity sev (vs ++ [v])
  = withSeverity sev vs
      ++ (if bool_decide (Vuln.severity v = sev) then [v] else []).
Proof.
  unfold withSeverity. rewrite filter_app. f_equal.
  case_bool_decide; [by rewrite filter_cons_True|by rewrite filter_cons_False].
Qed.

(** The count kept for a severity that is not an inherited name. *)
Lemma bySeverity_count sev vs :
  inheritedText sev = None ->
  getCount sev (bySeverity vs)
  = match withSeverity sev vs with
    | [] => None
    | _ :: _ => Some (CountNumber (N.of_nat (length (withSeverity sev vs))))
    end.
Proof.
  intros Hord. induction vs as [|v vs IH] using rev_ind; [done|].
  rewrite bySeverity_snoc, withSeverity_snoc.
  case_bool_decide as Hsev.
  - subst sev. rewrite bumpCount_ordinary by done.
    rewrite getCount_bumpOwn_same, IH.
    destruct (withSeverity (Vuln.severity v) vs) as [|w ws].
    + cbn [app length]. unfold firstCount. by rewrite Hord.
    + change ((w :: ws) ++ [v]) with (w :: (ws ++ [v])).
      cbn [plusOne length]. rewrite length_app. cbn [length].
      do 2 f_equal. lia.
  - rewrite getCount_bump_other by done. by rewrite app_nil_r.
Qed.

(** The keys of the counting object: the severities of the list, but
    never [__proto__]. *)
Lemma bySeverity_keys vs sev :
  sev ∈ fst <$> bySeverity vs
  ↔ sev ∈ Vuln.severity <$> vs ∧ sev ≠ lit "__proto__".
Proof.
  revert sev. induction vs as [|w vs IH] using rev_ind; intros sev.
  - split; [by intros ?%elem_of_nil|by intros [?%elem_of_nil _]].
  - rewrite bySeverity_snoc, bumpCount_keys, fmap_app.
    cbn [fmap list_fmap]. rewrite (elem_of_app (Vuln.severity <$> vs)).
    rewrite list_elem_of_singleton.
    case_bool_decide as Hproto; [|case_bool_decide as Hin].
    + rewrite IH. split; [intros [H1 H2]; split; [by left|done]|].
      intros [[H|H] Hne]; [done|]. congruence.
    + rewrite IH. split; [intros [H1 H2]; split; [by left|done]|].
      intros [[H|H] Hne]; [done|]. subst sev. by apply IH.
    + rewrite elem_of_app, list_elem_of_singleton, IH. split.
      * intros [[H1 H2]| ->]; (split; [by auto|done]).
      * intros [[H|H] Hne]; [left; done|by right].
Qed.

(** The numbers add up while no severity is an inherited name. *)
Lemma bumpOwn_total key acc :
  inheritedText key = None ->
  Forall (λ kv, ∃ n, snd kv = CountNumber n) acc ->
  totalCount (bumpOwn key acc) = (totalCount acc + 1)%N
  ∧ Forall (λ kv, ∃ n, snd kv = CountNumber n) (bumpOwn key acc).
Proof.
  intros Hord Hall.
  induction Hall as [|[k value] acc [n Hn] Hall IH]; cbn [bumpOwn].
  - unfold firstCount. rewrite Hord. split; [done|].
    constructor; [by exists 1%N|constructor].
  - cbn [snd] in Hn. subst value. destruct IH as [IHsum IHall].
    case_bool_decide.
    + cbn [plusOne]. split.
      * cbn [totalCount foldr snd countNumber]. fold (totalCount acc). lia.
      * constructor; [by eexists|done].
    + split.
      * cbn [totalCount foldr snd countNumber].
        fold (totalCount (bumpOwn key acc)). fold (totalCount acc). lia.
      * constructor; [by eexists|done].
Qed.

Lemma insertIndexed_perm {V} (e : N * (jsstring * V)) l :
  insertIndexed e l ≡ₚ e :: l.
Proof.
  induction l as [|e' l IH]; cbn [insertIndexed]; [done|].
  destruct (fst e <=? fst e')%N; [done|].
  rewrite IH. apply Permutation_swap.
Qed.

Lemma sortIndexed_perm {V} (l : list (N * (jsstring * V))) :
  foldr insertIndexed [] l ≡ₚ l.
Proof.
  induction l as [|e l IH]; cbn [foldr]; [done|].
  by rewrite insertIndexed_perm, IH.
Qed.

Lemma objectEntries_perm {V} (obj : list (jsstring * V)) :
  objectEntries obj ≡ₚ obj.
Proof.
  unfold objectEntries.
  change (map snd ?l) with (snd <$> l). rewrite sortIndexed_perm.
  induction obj as [|kv obj IH]; [done|].
  cbn [omap list_omap]. destruct (arrayIndex (fst kv)) eqn:Hidx.
  - rewrite fmap_cons. cbn [snd].
    rewrite filter_cons_False by (rewrite Hidx; done).
    cbn [app]. by apply Permutation_skip.
  - rewrite filter_cons_True by done.
    rewrite <- Permutation_middle. by apply Permutation_skip.
Qed.

Lemma objectEntries_no_index {V} (obj : list (jsstring * V)) :
  Forall (λ kv, arrayIndex (fst kv) = None) obj -> objectEntries obj = obj.
Proof.
  intros Hall. unfold objectEntries.
  assert (omap (λ kv : jsstring * V,
                  match arrayIndex (fst kv) with
                  | Some i => Some (i, kv)
                  | None => None
                  end) obj = []) as ->.
  { induction Hall as [|kv obj Hkv _ IH]; [done|].
    cbn [omap list_omap]. by rewrite Hkv. }
  cbn [foldr map app].
  induction Hall as [|kv obj Hkv _ IH]; [done|].
  rewrite filter_cons_True by done. by rewrite IH.
Qed.

(** The counting object of two vulnerabilities whose severities differ
    and are not inherited names. *)
Lemma bySeverity_pair v1 v2 :
  Vuln.severity v1 ≠ Vuln.severity v2 ->
  inheritedText (Vuln.severity v1) = None ->
  inheritedText (Vuln.severity v2) = None ->
  bySeverity [v1; v2]
  = [(Vuln.severity v1, CountNumber 1); (Vuln.severity v2, CountNumber 1)].
Proof.
  intros Hne Ho1 Ho2. unfold bySeverity. cbn [fold_left].
  rewrite !bumpCount_ordinary by done. cbn [bumpOwn]. unfold firstCount.
  rewrite Ho1, Ho2. by rewrite bool_decide_eq_false_2.
Qed.

End Histogram.

(** The summary counts each severity exactly.  No severity is listed
    twice; and for a severity that is not the name of a member every
    object inherits ([constructor], [toString], [__proto__], ...), the
    count kept is the number of vulnerabilities that have it, and the
    severity has a count exactly when some vulnerability has it. *)
Theorem severity_counts_are_exact (vulnerabilities : list Vulnerability)
    (sev : jsstring) :
  NoDup (fst <$> bySeverity vulnerabilities)
  ∧ (inheritedText sev = None ->
     (getCount sev (bySeverity vulnerabilities) = None
      ↔ withSeverity sev vulnerabilities = [])
     ∧ (∀ count, getCount sev (bySeverity vulnerabilities) = Some count ->
          count = CountNumber
                    (N.of_nat (length (withSeverity sev vulnerabilities)))
          ∧ withSeverity sev vulnerabilities ≠ [])).
Proof.
  split; [apply bySeverity_NoDup|].
  intros Hord. rewrite (bySeverity_count sev vulnerabilities Hord).
  destruct (withSeverity sev vulnerabilities) as [|w ws]; split.
  - done.
  - by intros count [=].
  - by split.
  - intros count [= <-]. by split.
Qed.

Lemma severity_counts_are_exact_witness :
  inheritedText (lit "high") = None
  ∧ getCount (lit "high") (bySeverity [reentrancy; slashedId; reentrancy])
    = Some (CountNumber 3)
  ∧ CountNumber 3
    = CountNumber
        (N.of_nat (length (withSeverity (lit "high")
                             [reentrancy; slashedId; reentrancy]))).
Proof.
  split_and!; [reflexivity..|].
  exact (proj1 (proj2 (proj2 (severity_counts_are_exact
           [reentrancy; slashedId; reentrancy] (lit "high")) eq_refl)
           (CountNumber 3) eq_refl)).
Defined.

(** The counts of the summary add up to the total the report prints,
    and every count is a number, when no severity is the name of a
    member every object inherits. *)
Theorem severity_counts_add_up (vulnerabilities : list Vulnerability) :
  Forall (λ v, inheritedText (Vuln.severity v) = None) vulnerabilities ->
  totalCount (bySeverity vulnerabilities)
  = N.of_nat (length vulnerabilities)
  ∧ Forall (λ kv, ∃ n, snd kv = CountNumber n) (bySeverity vulnerabilities).
Proof.
  induction vulnerabilities as [|v vs IH] using rev_ind; intros Hall.
  - split; [done|constructor].
  - apply Forall_app in Hall as [Hvs Hv].
    apply Forall_inv in Hv.
    destruct (IH Hvs) as [IHsum IHall].
    rewrite bySeverity_snoc, bumpCount_ordinary by done.
    destruct (bumpOwn_total (Vuln.severity v) (bySeverity vs) Hv IHall)
      as [-> Hnum].
    split; [|done]. rewrite IHsum, length_app. cbn [length]. lia.
Qed.

Lemma severity_counts_add_up_witness :
  totalCount
    (bySeverity [reentrancy; bareFinding "V-2" "low"; slashedId])
  = 3%N.
Proof.
  apply (severity_counts_add_up
           [reentrancy; bareFinding "V-2" "low"; slashedId]).
  by repeat constructor.
Defined.

(** Severities are listed in the order of their first appearance: one
    more vulnerability adds its severity at the end when it is new and
    is not [__proto__], and leaves the list of severities as it is
    otherwise; and a severity is listed exactly when some vulnerability
    has it and it is not [__proto__]. *)
Theorem severities_in_order_of_appearance
    (vulnerabilities : list Vulnerability) (v : Vulnerability) :
  (fst <$> bySeverity (vulnerabilities ++ [v])
   = if bool_decide (Vuln.severity v = lit "__proto__")
     then fst <$> bySeverity vulnerabilities
     else if bool_decide (Vuln.severity v ∈ fst <$> bySeverity vulnerabilities)
     then fst <$> bySeverity vulnerabilities
     else (fst <$> bySeverity vulnerabilities) ++ [Vuln.severity v])
  ∧ (∀ sev, sev ∈ fst <$> bySeverity vulnerabilities
            ↔ sev ∈ Vuln.severity <$> vulnerabilities
              ∧ sev ≠ lit "__proto__").
Proof.
  split.
  - by rewrite bySeverity_snoc, bumpCount_keys.
  - intros sev. apply bySeverity_keys.
Qed.

(** The lines of the summary are those of the counts, none lost and
    none repeated; when no severity is written as an array index (a
    plain number), they come in the order the severities first
    appeared. *)
Theorem summary_lines_follow_counts (vulnerabilities : list Vulnerability) :
  objectEntries (bySeverity vulnerabilities) ≡ₚ bySeverity vulnerabilities
  ∧ (Forall (λ v, arrayIndex (Vuln.severity v) = None) vulnerabilities ->
     objectEntries (bySeverity vulnerabilities) = bySeverity vulnerabilities).
Proof.
  split; [apply objectEntries_perm|].
  intros Hall. apply objectEntries_no_index.
  apply Forall_forall. intros [k n] Hin. cbn [fst].
  assert (k ∈ fst <$> bySeverity vulnerabilities) as Hk.
  { apply list_elem_of_fmap. by exists (k, n). }
  apply bySeverity_keys in Hk as [Hk _].
  apply list_elem_of_fmap in Hk as (v & -> & Hv).
  rewrite Forall_forall in Hall. by apply Hall.
Qed.

Lemma summary_lines_follow_counts_witness :
  objectEntries (bySeverity [reentrancy; slashedId])
  = bySeverity [reentrancy; slashedId].
Proof.
  apply (proj2 (summary_lines_follow_counts [reentrancy; slashedId])).
  by repeat constructor.
Defined.

(** The summary groups by the severity as written, but prints it in
    upper case.  For two vulnerabilities whose severities differ only
    in the case of their letters (and are neither array indices nor
    names every object inherits), the report has two summary lines with
    the same text, each counting one, between the heading of the
    summary and the rule. *)
Theorem summary_is_case_sensitive (v1 v2 : Vulnerability)
    (jobId : option jsstring) :
  Vuln.severity v1 ≠ Vuln.severity v2 ->
  toUpperCase (Vuln.severity v1) = toUpperCase (Vuln.severity v2) ->
  arrayIndex (Vuln.severity v1) = None ->
  arrayIndex (Vuln.severity v2) = None ->
  inheritedText (Vuln.severity v1) = None ->
  inheritedText (Vuln.severity v2) = None ->
  generateAllVulnerabilitiesMarkdown [v1; v2] jobId
  = join [newline]
      ([lit "# Security Audit Report"; []]
         ++ (if truthy jobId then [lit "**Job ID:** " ++ default [] jobId; []]
             else [])
         ++ [lit "**Total Vulnerabilities:** 2"; [];
             lit "### Summary by Severity"; [];
             lit "- **" ++ toUpperCase (Vuln.severity v1) ++ lit ":** 1";
             lit "- **" ++ toUpperCase (Vuln.severity v1) ++ lit ":** 1";
             []; lit "---"; []]
         ++ [vulnerabilityToMarkdown v1; lit "---"; [];
             vulnerabilityToMarkdown v2; lit "---"; []]).
Proof.
  intros Hne Hupper Hi1 Hi2 Ho1 Ho2.
  unfold generateAllVulnerabilitiesMarkdown, reportPreamble.
  rewrite bySeverity_pair by done.
  rewrite objectEntries_no_index by by repeat constructor.
  unfold severityCountLine, totalLine.
  cbn [map fst snd countText flat_map reportSection length].
  rewrite <- Hupper. rewrite <- !app_assoc. reflexivity.
Qed.

Lemma summary_is_case_sensitive_witness :
  generateAllVulnerabilitiesMarkdown
    [bareFinding "V-1" "high"; bareFinding "V-2" "High"] None
  = join [newline]
      [lit "# Security Audit Report"; [];
       lit "**Total Vulnerabilities:** 2"; [];
       lit "### Summary by Severity"; [];
       lit "- **HIGH:** 1";
       lit "- **HIGH:** 1";
       []; lit "---"; [];
       vulnerabilityToMarkdown (bareFinding "V-1" "high"); lit "---"; [];
       vulnerabilityToMarkdown (bareFinding "V-2" "High"); lit "---"; []].
Proof.
  apply (summary_is_case_sensitive (bareFinding "V-1" "high")
           (bareFinding "V-2" "High") None);
    [by vm_compute|reflexivity..].
Defined.

(** Names every object inherits are not counted.  A severity
    [constructor] gets the text of the inherited member with a "1"
    appended for each vulnerability in place of a count, and a severity
    [__proto__] gets no entry at all. *)
Example inherited_names_are_not_counted :
  bySeverity
    [bareFinding "V-1" "constructor"; bareFinding "V-2" "__proto__";
     bareFinding "V-3" "high"; bareFinding "V-4" "constructor"]
  = [(lit "constructor",
      CountText (lit "function Object() { [native code] }11"));
     (lit "high", CountNumber 1)].
Proof. reflexivity. Qed.

(** ** The text of the reports, line by line *)

Lemma flat_map_sections vs :
  flat_map splitLines (flat_map reportSection vs)
  = flat_map (λ v, splitLines (vulnerabilityToMarkdown v) ++ [lit "---"; []])
      vs.
Proof.
  induction vs as [|v vs IH]; [done|].
  cbn [flat_map]. rewrite flat_map_app, IH. f_equal.
Qed.

Lemma splitLines_parts parts :
  parts ≠ [] -> Forall (λ p, newline ∉ p) parts ->
  splitLines (join [newline] parts) = parts.
Proof.
  intros Hne Hall. destruct parts as [|p parts]; [done|].
  rewrite splitLines_join. clear Hne.
  induction Hall as [|q qs Hq _ IH]; [done|].
  cbn [flat_map]. rewrite splitLines_single by done. by rewrite IH.
Qed.

(** The single report is its title, an empty line and the section of
    the vulnerability, line for line. *)
Theorem single_report_lines (vuln : Vulnerability) :
  splitLines (generateVulnerabilityMarkdown vuln)
  = [lit "# Vulnerability Report"; []]
      ++ splitLines (vulnerabilityToMarkdown vuln).
Proof.
  unfold generateVulnerabilityMarkdown.
  change (lit "# Vulnerability Report" ++ [newline; newline] ++ ?md)
    with (lit "# Vulnerability Report" ++ newline :: ([] ++ newline :: md)).
  by rewrite !splitLines_app_newline.
Qed.

(** The aggregate report, line for line: the lines of the header, then
    for each vulnerability, in the order of the list, the lines of its
    section followed by a rule and an empty line; nothing comes between
    two sections and nothing after the last. *)
Theorem aggregate_report_lines (vulnerabilities : list Vulnerability)
    (jobId : option jsstring) :
  splitLines (generateAllVulnerabilitiesMarkdown vulnerabilities jobId)
  = flat_map splitLines (reportPreamble vulnerabilities jobId)
      ++ flat_map
           (λ v, splitLines (vulnerabilityToMarkdown v) ++ [lit "---"; []])
           vulnerabilities.
Proof.
  unfold generateAllVulnerabilitiesMarkdown.
  rewrite <- flat_map_sections, <- flat_map_app.
  unfold reportPreamble at 1.
  change (([lit "# Security Audit Report"; []] ++ ?l) ++ ?r)
    with (lit "# Security Audit Report" :: ([] :: l) ++ r).
  rewrite splitLines_join. unfold reportPreamble. done.
Qed.

(** Joining then splitting.  The lines pushed for a section are the
    lines of its text whenever no field holds a line break; in general
    the lines of the text are the lines of the pushed elements, in
    order.  An empty array of lines joins to the empty text, which is
    one empty line. *)
Theorem section_text_lines (vuln : Vulnerability) :
  splitLines (vulnerabilityToMarkdown vuln)
  = flat_map splitLines (vulnerabilityLines vuln)
  ∧ (Forall (λ line, newline ∉ line) (vulnerabilityLines vuln) ->
     splitLines (vulnerabilityToMarkdown vuln) = vulnerabilityLines vuln)
  ∧ splitLines (join [newline] []) = [[]].
Proof.
  unfold vulnerabilityToMarkdown. split_and!.
  - unfold vulnerabilityLines. cbn [app]. by rewrite splitLines_join.
  - intros Hall. by apply splitLines_parts.
  - reflexivity.
Qed.

Lemma section_text_lines_witness :
  splitLines (vulnerabilityToMarkdown reentrancy)
  = vulnerabilityLines reentrancy.
Proof.
  apply (proj1 (proj2 (section_text_lines reentrancy))).
  refine (bool_decide_unpack _ _). vm_compute. exact I.
Defined.

(** Empty texts count as absent.  A vulnerability whose optional texts
    are empty strings renders as one that has none, and an empty job
    identifier gives the report and the file name of no identifier. *)
Theorem empty_text_is_absent (id title sev : jsstring) (locs : list Loc.t)
    (vulnerabilities : list Vulnerability) :
  vulnerabilityToMarkdown
    (Vuln.mk id title sev (Some []) (Some []) locs (Some []) (Some []))
  = vulnerabilityToMarkdown (Vuln.mk id title sev None None locs None None)
  ∧ downloadAllVulnerabilities vulnerabilities (Some [])
    = downloadAllVulnerabilities vulnerabilities None
  ∧ snd (downloadAllVulnerabilities vulnerabilities (Some []))
    = lit "audit-report.md".
Proof. by split_and!. Qed.

(** ** The launcher: every way it ends *)

Section LauncherEnds.

Import Launcher LauncherChecks.
Local Open Scope string_scope.
Local Open Scope nat_scope.

(** With the required variables set, the script is at its first
    command. *)
Lemma launcher_required env sys :
  requiredSet env = true ->
  ∃ submissionDir,
    SUBMISSION_DIR env = Some submissionDir
    ∧ launcher env sys =
        command (mkdirOutputDirs sys) (
        if negb (allDigits (timeoutSeconds env)) then
          {| exitStatus := 2;
             stderrLines :=
               ["invalid EVM_BENCH_PI_TIMEOUT_SECONDS=" ++ timeoutSeconds env] |}
        else
          command (cpInstructions sys) (
          command (rmOldReports sys) (
          command (mkdirConfigDir sys) (
          command (writeModelsJson sys) (
          if negb (auditJsonNonEmpty sys) && negb (auditMdNonEmpty sys) then
            {| exitStatus := 2;
               stderrLines := [missingOutputMessage submissionDir] |}
          else {| exitStatus := 0; stderrLines := [] |}))))).
Proof.
  destruct env as [a1 a2 a3 a4 a5 a6 a7 t].
  unfold requiredSet, isSet, launcher, timeoutSeconds.
  cbn [AGENT_DIR SUBMISSION_DIR LOGS_DIR PI_API_KEY PI_MODEL PI_BASE_URL
       EVM_BENCH_DETECT_MD EVM_BENCH_PI_TIMEOUT_SECONDS].
  intros Hreq.
  destruct a1 as [[|c1 r1]|]; [done| |done].
  destruct a2 as [[|c2 r2]|]; [done| |done].
  destruct a3 as [[|c3 r3]|]; [done| |done].
  destruct a4 as [[|c4 r4]|]; [done| |done].
  destruct a5 as [[|c5 r5]|]; [done| |done].
  destruct a6 as [[|c6 r6]|]; [done| |done].
  destruct a7 as [[|c7 r7]|]; [done| |done].
  exists (String c2 r2). split; [done|]. reflexivity.
Qed.

Lemma firstUnset_launcher env sys line name :
  firstUnset (requiredVariables env) = Some (line, name) ->
  launcher env sys =
    {| exitStatus := 1;
       stderrLines := [expansionMessage sys line name] |}.
Proof.
  destruct env as [a1 a2 a3 a4 a5 a6 a7 t].
  unfold requiredVariables, launcher.
  cbn [AGENT_DIR SUBMISSION_DIR LOGS_DIR PI_API_KEY PI_MODEL PI_BASE_URL
       EVM_BENCH_DETECT_MD EVM_BENCH_PI_TIMEOUT_SECONDS firstUnset].
  destruct a1 as [[|c1 r1]|]; cbn [isSet required];
    [by intros [= <- <-]| |by intros [= <- <-]].
  destruct a2 as [[|c2 r2]|]; cbn [isSet required];
    [by intros [= <- <-]| |by intros [= <- <-]].
  destruct a3 as [[|c3 r3]|]; cbn [isSet required];
    [by intros [= <- <-]| |by intros [= <- <-]].
  destruct a4 as [[|c4 r4]|]; cbn [isSet required];
    [by intros [= <- <-]| |by intros [= <- <-]].
  destruct a5 as [[|c5 r5]|]; cbn [isSet required];
    [by intros [= <- <-]| |by intros [= <- <-]].
  destruct a6 as [[|c6 r6]|]; cbn [isSet required];
    [by intros [= <- <-]| |by intros [= <- <-]].
  destruct a7 as [[|c7 r7]|]; cbn [isSet required];
    [by intros [= <- <-]|done|by intros [= <- <-]].
Qed.

Lemma firstUnset_requiredSet env :
  requiredSet env = false ->
  ∃ line name, firstUnset (requiredVariables env) = Some (line, name)
               ∧ In (line, name) (map fst (requiredVariables env)).
Proof.
  destruct env as [a1 a2 a3 a4 a5 a6 a7 t].
  unfold requiredSet, requiredVariables.
  cbn [AGENT_DIR SUBMISSION_DIR LOGS_DIR PI_API_KEY PI_MODEL PI_BASE_URL
       EVM_BENCH_DETECT_MD firstUnset map fst].
  destruct (isSet a1); [|intros _; do 2 eexists; split; [done|by left]].
  destruct (isSet a2); [|intros _; do 2 eexists; split; [done|right; by left]].
  destruct (isSet a3);
    [|intros _; do 2 eexists; split; [done|do 2 right; by left]].
  destruct (isSet a4);
    [|intros _; do 2 eexists; split; [done|do 3 right; by left]].
  destruct (isSet a5);
    [|intros _; do 2 eexists; split; [done|do 4 right; by left]].
  destruct (isSet a6);
    [|intros _; do 2 eexists; split; [done|do 5 right; by left]].
  destruct (isSet a7);
    [done|intros _; do 2 eexists; split; [done|do 6 right; by left]].
Qed.

Lemma command_chain_fails (statuses : list nat) (k : Result) :
  Exists (λ n, n ≠ 0) statuses ->
  ∃ ok n rest,
    statuses = (ok ++ n :: rest)%list ∧ Forall (λ m, m = 0) ok ∧ n ≠ 0
    ∧ foldr command k statuses = {| exitStatus := n; stderrLines := [] |}.
Proof.
  induction statuses as [|m statuses IH]; intros Hex.
  - by apply Exists_nil in Hex.
  - cbn [foldr]. unfold command at 1. case_bool_decide as Hm.
    + apply Exists_cons in Hex as [Hex|Hex]; [done|].
      destruct (IH Hex) as (pre & n & rest & -> & Hpre & Hn & ->).
      exists (m :: pre), n, rest. split_and!; [done|by constructor|done|done].
    + exists [], m, statuses. split_and!; [done|constructor|done|done].
Qed.

Lemma allDigits_spec s :
  allDigits s = true
  ↔ s ≠ "" ∧ Forall (λ a, isDecimalDigit a = true) (list_ascii_of_string s).
Proof.
  destruct s as [|a s]; [by split; [|intros []]|].
  unfold allDigits. rewrite forallb_forall, Forall_forall.
  split; [intros H; split; [done|]|intros [_ H]];
    intros x Hx; apply H; by apply list_elem_of_In.
Qed.

End LauncherEnds.

(** A missing variable ends the launcher at once.  When a required
    variable is unset or empty, the launcher ends with status 1 and the
    one message of the shell for the first such variable in the order
    of the script: the name of the script, the line of the check, the
    name of the variable and the words "missing NAME"; whatever the
    machine would have answered to its commands. *)
Theorem launcher_missing_variable (env : Launcher.Env) (sys : Launcher.Sys) :
  Launcher.requiredSet env = false ->
  ∃ line name,
    LauncherChecks.firstUnset (LauncherChecks.requiredVariables env)
    = Some (line, name)
    ∧ In (line, name) (map fst (LauncherChecks.requiredVariables env))
    ∧ Launcher.launcher env sys =
        {| Launcher.exitStatus := 1;
           Launcher.stderrLines :=
             [(Launcher.scriptName sys ++ ": line " ++ Launcher.lineNumber line
                 ++ ": " ++ name ++ ": missing " ++ name)%string] |}.
Proof.
  intros Hreq.
  destruct (firstUnset_requiredSet env Hreq) as (line & name & Hfirst & Hin).
  exists line, name. split_and!; [done..|]. by apply firstUnset_launcher.
Qed.

Lemma launcher_missing_variable_witness :
  Launcher.launcher noModelEnv LauncherSamples.reportWritten
  = {| Launcher.exitStatus := 1;
       Launcher.stderrLines :=
         ["./launcher.sh: line 19: PI_MODEL: missing PI_MODEL"%string] |}.
Proof.
  destruct (launcher_missing_variable noModelEnv LauncherSamples.reportWritten
              eq_refl) as (line & name & Hfirst & _ & Hrun).
  injection Hfirst as <- <-. exact Hrun.
Defined.

(** The launcher reports success only with a report in hand.  The
    launcher ends with status 0 exactly when every required variable is
    set, every set-up command succeeds, the timeout is a run of digits
    and one of the two reports is a non-empty file after the run; it
    then writes nothing of its own to the error stream. *)
Theorem launcher_success_iff (env : Launcher.Env) (sys : Launcher.Sys) :
  (Launcher.exitStatus (Launcher.launcher env sys) = 0%nat
   ↔ Launcher.requiredSet env = true
     ∧ Launcher.mkdirOutputDirs sys = 0%nat
     ∧ Launcher.allDigits (Launcher.timeoutSeconds env) = true
     ∧ Launcher.laterSetupSucceeds sys = true
     ∧ Launcher.auditJsonNonEmpty sys || Launcher.auditMdNonEmpty sys = true)
  ∧ (Launcher.exitStatus (Launcher.launcher env sys) = 0%nat ->
     Launcher.stderrLines (Launcher.launcher env sys) = []).
Proof.
  assert (Launcher.exitStatus (Launcher.launcher env sys) = 0%nat ->
          (Launcher.requiredSet env = true
           ∧ Launcher.mkdirOutputDirs sys = 0%nat
           ∧ Launcher.allDigits (Launcher.timeoutSeconds env) = true
           ∧ Launcher.laterSetupSucceeds sys = true
           ∧ Launcher.auditJsonNonEmpty sys || Launcher.auditMdNonEmpty sys
             = true)
          ∧ Launcher.stderrLines (Launcher.launcher env sys) = []) as Hzero.
  { destruct (Launcher.requiredSet env) eqn:Hreq.
    - destruct (launcher_required env sys Hreq) as (dir & _ & ->).
      unfold Launcher.command, Launcher.laterSetupSucceeds.
      destruct (Launcher.allDigits _), (Launcher.auditJsonNonEmpty sys),
        (Launcher.auditMdNonEmpty sys);
        repeat case_bool_decide;
        cbn [negb andb orb Launcher.exitStatus Launcher.stderrLines];
        intros Hzero; done.
    - destruct (firstUnset_requiredSet env Hreq) as (line & name & Hfirst & _).
      rewrite (firstUnset_launcher env sys line name Hfirst).
      cbn [Launcher.exitStatus]. done. }
  split; [split|].
  - intros H. by apply Hzero.
  - intros (Hreq & Hmk & Hdigits & Hsetup & Hreport).
    destruct (launcher_required env sys Hreq) as (dir & _ & ->).
    unfold Launcher.laterSetupSucceeds in Hsetup.
    repeat (apply andb_true_iff in Hsetup as [Hsetup ?]).
    unfold Launcher.command. rewrite Hdigits.
    rewrite (bool_decide_eq_true_2 _ Hmk), Hsetup.
    repeat match goal with H : bool_decide _ = true |- _ => rewrite H; clear H end.
    by destruct (Launcher.auditJsonNonEmpty sys),
         (Launcher.auditMdNonEmpty sys).
  - intros H. by apply Hzero.
Qed.

Lemma launcher_success_iff_witness :
  Launcher.auditJsonNonEmpty LauncherSamples.reportWritten
  || Launcher.auditMdNonEmpty LauncherSamples.reportWritten = true.
Proof.
  exact (proj2 (proj2 (proj2 (proj2 (proj1 (proj1 (launcher_success_iff
           LauncherSamples.tenMinutesEnv LauncherSamples.reportWritten))
           eq_refl))))).
Defined.

(** A failing set-up command ends the launcher with its status.  With
    the required variables set: when the output directories cannot be
    made the launcher ends with the status of [mkdir], before the
    timeout is looked at; when a later set-up command fails, the
    launcher ends with the status of the first one that does; in both
    cases it writes no message of its own and does not look for the
    reports. *)
Theorem launcher_setup_failure (env : Launcher.Env) (sys : Launcher.Sys) :
  Launcher.requiredSet env = true ->
  (Launcher.mkdirOutputDirs sys ≠ 0%nat ->
   Launcher.launcher env sys =
     {| Launcher.exitStatus := Launcher.mkdirOutputDirs sys;
        Launcher.stderrLines := [] |})
  ∧ (Launcher.mkdirOutputDirs sys = 0%nat ->
     Launcher.allDigits (Launcher.timeoutSeconds env) = true ->
     Launcher.laterSetupSucceeds sys = false ->
     ∃ succeeded n rest,
       LauncherChecks.laterStatuses sys = succeeded ++ n :: rest
       ∧ Forall (λ m, m = 0%nat) succeeded ∧ n ≠ 0%nat
       ∧ Launcher.launcher env sys =
           {| Launcher.exitStatus := n; Launcher.stderrLines := [] |}).
Proof.
  intros Hreq.
  destruct (launcher_required env sys Hreq) as (dir & _ & Hrun). split.
  - intros Hmk. rewrite Hrun. unfold Launcher.command at 1.
    by rewrite bool_decide_eq_false_2.
  - intros Hmk Hdigits Hsetup. rewrite Hrun. unfold Launcher.command at 1.
    rewrite bool_decide_eq_true_2 by done. rewrite Hdigits. cbn [negb].
    apply (command_chain_fails (LauncherChecks.laterStatuses sys)).
    unfold Launcher.laterSetupSucceeds in Hsetup.
    unfold LauncherChecks.laterStatuses.
    repeat (apply andb_false_iff in Hsetup as [Hsetup|Hsetup]);
      apply bool_decide_eq_false in Hsetup.
    + by apply Exists_cons_hd.
    + by apply Exists_cons_tl, Exists_cons_hd.
    + by do 2 apply Exists_cons_tl; apply Exists_cons_hd.
    + by do 3 apply Exists_cons_tl; apply Exists_cons_hd.
Qed.

Lemma launcher_setup_failure_witness :
  Launcher.launcher LauncherSamples.tenMinutesEnv LauncherSamples.copyFails
  = {| Launcher.exitStatus := 1; Launcher.stderrLines := [] |}.
Proof.
  destruct (proj2 (launcher_setup_failure LauncherSamples.tenMinutesEnv
                     LauncherSamples.copyFails eq_refl)
              eq_refl eq_refl eq_refl)
    as (succeeded & n & rest & Hlist & Hok & Hn & Hrun).
  reflexivity.
Defined.

(** A timeout that is not a number.  The check accepts exactly the
    non-empty runs of decimal digits.  With the required variables set
    and the output directories made, a refused value ends the launcher
    with status 2 and the one message that repeats the value, before
    any later command; and a refused value is always one the variable
    was set to, never the default. *)
Theorem launcher_invalid_timeout (env : Launcher.Env) (sys : Launcher.Sys) :
  (∀ s, Launcher.allDigits s = true
        ↔ s ≠ EmptyString
          ∧ Forall (λ a, Launcher.isDecimalDigit a = true)
              (list_ascii_of_string s))
  ∧ (Launcher.requiredSet env = true ->
     Launcher.mkdirOutputDirs sys = 0%nat ->
     Launcher.allDigits (Launcher.timeoutSeconds env) = false ->
     Launcher.launcher env sys =
       {| Launcher.exitStatus := 2;
          Launcher.stderrLines :=
            [("invalid EVM_BENCH_PI_TIMEOUT_SECONDS="
                ++ Launcher.timeoutSeconds env)%string] |}
     ∧ Launcher.EVM_BENCH_PI_TIMEOUT_SECONDS env
       = Some (Launcher.timeoutSeconds env)).
Proof.
  split; [apply allDigits_spec|].
  intros Hreq Hmk Hbad.
  destruct (launcher_required env sys Hreq) as (dir & _ & ->).
  unfold Launcher.command at 1. rewrite bool_decide_eq_true_2 by done.
  rewrite Hbad. split; [done|].
  unfold Launcher.timeoutSeconds, Launcher.orDefault in *.
  destruct (Launcher.EVM_BENCH_PI_TIMEOUT_SECONDS env) as [[|c r]|];
    [by vm_compute in Hbad|done|by vm_compute in Hbad].
Qed.

Lemma launcher_invalid_timeout_witness :
  Launcher.stderrLines
    (Launcher.launcher LauncherSamples.badTimeoutEnv
       LauncherSamples.nothingWritten)
  = ["invalid EVM_BENCH_PI_TIMEOUT_SECONDS=10m"%string].
Proof.
  exact (f_equal Launcher.stderrLines
           (proj1 (proj2 (launcher_invalid_timeout LauncherSamples.badTimeoutEnv
                            LauncherSamples.nothingWritten)
                     eq_refl eq_refl eq_refl))).
Defined.











